(** * Math-aware markdown preprocessing of the blog's import/export pipeline

    A shallow embedding of [escapeHtmlAttr] and [preprocessMathInMarkdown]
    (features/import-export/utils/markdown-parser) together with the
    properties the specification states about them.

    JavaScript strings are sequences of UTF-16 code units; the regular
    expressions of the source carry no [u] flag, so they work code unit by
    code unit.  A string is therefore a list of code units, each a number
    below 65536. *)

From Stdlib Require Import Ascii String DecimalString DecimalNat.
From Stdlib Require Import List NArith ZArith Bool Arith Lia.
Import ListNotations.

(** ** Code units and string literals *)

Definition char := N.
Definition str := list char.

(** [lit] reads an ASCII literal as a JavaScript string. *)
Definition lit (s : string) : str := map N_of_ascii (list_ascii_of_string s).

Definition NUL : char := 0%N.
Definition NL : char := 10%N.
Definition QUOT : char := 34%N.
Definition DOLLAR : char := 36%N.
Definition AMP : char := 38%N.
Definition APOS : char := 39%N.
Definition LT : char := 60%N.
Definition GT : char := 62%N.
Definition BACKTICK : char := 96%N.
Definition TILDE : char := 126%N.

(** [\d] *)
Definition is_digit (c : char) : bool := ((48 <=? c) && (c <=? 57))%N.

(** [[a-zA-Z]] *)
Definition is_alpha (c : char) : bool :=
  (((65 <=? c) && (c <=? 90)) || ((97 <=? c) && (c <=? 122)))%N.

(** [\w], the class that decides [\b] *)
Definition is_word (c : char) : bool :=
  is_alpha c || is_digit c || (c =? 95)%N.

(** [\s], which is also the set [String.prototype.trim] strips: the
    ECMAScript WhiteSpace and LineTerminator code points. *)
Definition is_space (c : char) : bool :=
  (((9 <=? c) && (c <=? 13)) || (c =? 32) || (c =? 160) || (c =? 5760)
   || ((8192 <=? c) && (c <=? 8202)) || (c =? 8232) || (c =? 8233)
   || (c =? 8239) || (c =? 8287) || (c =? 12288) || (c =? 65279))%N.

(** ** String primitives *)

Fixpoint dropWhile (p : char -> bool) (s : str) : str :=
  match s with
  | [] => []
  | c :: t => if p c then dropWhile p t else s
  end.

(** [s.trim()] *)
Definition trim (s : str) : str :=
  rev (dropWhile is_space (rev (dropWhile is_space s))).

(** [starts pat s]: [pat] occurs in [s] at index 0. *)
Fixpoint starts (pat s : str) : bool :=
  match pat, s with
  | [], _ => true
  | p :: pat', c :: s' => (p =? c)%N && starts pat' s'
  | _ :: _, [] => false
  end.

(** [indexOf pat s]: the index of the first occurrence of [pat] in [s]. *)
Fixpoint indexOf (pat s : str) : option nat :=
  match s with
  | [] => if starts pat [] then Some 0 else None
  | _ :: t => if starts pat s then Some 0 else option_map S (indexOf pat t)
  end.

Definition contains (pat s : str) : bool :=
  match indexOf pat s with Some _ => true | None => false end.

Definition has_char (c : char) (s : str) : bool := existsb (N.eqb c) s.

(** [s.replace(/c/g, rep)] for a one-character pattern and a replacement
    text without [$]. *)
Definition replaceChar (c : char) (rep : str) (s : str) : str :=
  flat_map (fun x => if (x =? c)%N then rep else [x]) s.

(** ** escapeHtmlAttr *)

Definition escapeHtmlAttr (s : str) : str :=
  replaceChar GT (lit "&gt;")
    (replaceChar LT (lit "&lt;")
       (replaceChar QUOT (lit "&quot;")
          (replaceChar AMP (lit "&amp;") s))).

(** ** The four regular expressions of the rewriting passes

    Each matcher answers the question the regular-expression engine asks at
    one start position: does the pattern match the text that begins here,
    and if so how many code units does the match take (and what does the
    capture group hold)? *)

Definition TILDES : str := [TILDE; TILDE; TILDE].
Definition DOLLARS : str := [DOLLAR; DOLLAR].

(** [/~~~[\s\S]*?~~~/]: an opening fence, then the shortest text that is
    followed by a closing fence. *)
Definition match_tilde (s : str) : option nat :=
  if starts TILDES s then
    match indexOf TILDES (skipn 3 s) with
    | Some j => Some (3 + j + 3)
    | None => None
    end
  else None.

Fixpoint run_length (c : char) (s : str) : nat :=
  match s with
  | x :: t => if (x =? c)%N then S (run_length c t) else 0
  | [] => 0
  end.

(** The group [(`+)] is greedy: it first takes the whole run of [k]
    backticks and gives one back each time no closing run [\1] can be found;
    for a fixed group the lazy body takes the first closing run. *)
Fixpoint match_fence (k : nat) (s : str) : option nat :=
  match k with
  | 0 => None
  | S k' =>
      match indexOf (repeat BACKTICK k) (skipn k s) with
      | Some j => Some (k + j + k)
      | None => match_fence k' s
      end
  end.

(** [/(`+)[\s\S]*?\1/] *)
Definition match_backtick (s : str) : option nat :=
  match_fence (run_length BACKTICK s) s.

(** [/\$\$([\s\S]*?)\$\$/]: the match length and the capture. *)
Definition match_block (s : str) : option (nat * str) :=
  if starts DOLLARS s then
    let body := skipn 2 s in
    match indexOf DOLLARS body with
    | Some j => Some (2 + j + 2, firstn j body)
    | None => None
    end
  else None.

(** The rest of [[^$\n]+?\$] once one interior character is taken: stop at
    the first [$], fail on a newline or at the end of the text. *)
Fixpoint inline_rest (s : str) : option str :=
  match s with
  | [] => None
  | c :: t =>
      if (c =? DOLLAR)%N then Some []
      else if (c =? NL)%N then None
      else option_map (cons c) (inline_rest t)
  end.

(** [/\$([^$\n]+?)\$/]: the match length and the capture. *)
Definition match_inline (s : str) : option (nat * str) :=
  match s with
  | d :: c :: t =>
      if (d =? DOLLAR)%N && negb (c =? DOLLAR)%N && negb (c =? NL)%N then
        match inline_rest t with
        | Some body => Some (1 + S (length body) + 1, c :: body)
        | None => None
        end
      else None
  | _ => None
  end.

(** ** The classifier of an inline candidate

    The five tests of the inline callback, each applied to the trimmed
    interior.  The character classes met at each choice point of these
    patterns are disjoint ([\d] against [[.,]] against [\s] against
    [[a-zA-Z]]), so giving back part of a greedy run never opens a new way
    to match and the longest run decides. *)

(** [p+]: the text left after the longest run, which must not be empty. *)
Definition many1 (p : char -> bool) (s : str) : option str :=
  match s with
  | c :: t => if p c then Some (dropWhile p t) else None
  | [] => None
  end.

Fixpoint prefix_len (p : char -> bool) (s : str) : nat :=
  match s with
  | c :: t => if p c then S (prefix_len p t) else 0
  | [] => 0
  end.

Definition is_dot (c : char) : bool := (c =? 46)%N.
Definition is_comma (c : char) : bool := (c =? 44)%N.

(** [\d+([.,]\d+)?]: the text left after the number token. *)
Definition number_token (s : str) : option str :=
  match many1 is_digit s with
  | None => None
  | Some r =>
      match r with
      | sep :: r' =>
          if is_dot sep || is_comma sep then
            match many1 is_digit r' with
            | Some r'' => Some r''
            | None => Some r
            end
          else Some r
      | [] => Some r
      end
  end.

(** [/^\d+([.,]\d+)?/] *)
Definition startsWithNumber (s : str) : bool :=
  match number_token s with Some _ => true | None => false end.

(** [(?:,\d{3})*]: the text left after as many groups as can be taken. *)
Fixpoint comma_groups (s : str) : str :=
  match s with
  | c :: d1 :: d2 :: d3 :: t =>
      if is_comma c && is_digit d1 && is_digit d2 && is_digit d3
      then comma_groups t else s
  | _ => s
  end.

(** [(?:\.\d+)?]: the text left after the decimal part, if there is one. *)
Definition decimal_part (s : str) : str :=
  match s with
  | c :: t =>
      if is_dot c then
        match many1 is_digit t with Some r => r | None => s end
      else s
  | [] => s
  end.

(** [/^(?:\d{1,3}(?:,\d{3})+|\d+)(?:\.\d+)?\s*$/].  The first alternative
    needs a leading run of at most three digits; when no comma group
    follows, the second alternative takes the same digits. *)
Definition isPureNumber (s : str) : bool :=
  match many1 is_digit s with
  | None => false
  | Some r =>
      let r' := if prefix_len is_digit s <=? 3 then comma_groups r else r in
      forallb is_space (decimal_part r')
  end.

(** Case folding of the [i] flag.  Without the [u] flag a code unit above
    127 never folds to an ASCII letter, so only ASCII letters fold. *)
Definition upper (c : char) : char :=
  if ((97 <=? c) && (c <=? 122))%N then (c - 32)%N else c.

(** The word [w] stands at the head of [s] and [\b] holds after it. *)
Fixpoint word_here (w s : str) : bool :=
  match w, s with
  | [], [] => true
  | [], c :: _ => negb (is_word c)
  | p :: w', c :: s' => (upper c =? upper p)%N && word_here w' s'
  | _ :: _, [] => false
  end.

Definition RANGE_WORDS : list str :=
  [lit "and"; lit "or"; lit "to"; lit "per"; lit "each"].

(** The scan of [/\b(?:and|or|to|per|each)\b/i]; [prev_word] tells whether
    the code unit before the current position is a word character. *)
Fixpoint has_range_word (prev_word : bool) (s : str) : bool :=
  match s with
  | [] => false
  | c :: t =>
      (negb prev_word && existsb (fun w => word_here w s) RANGE_WORDS)
      || has_range_word (is_word c) t
  end.

Definition hasRangeOrCurrencyWords (s : str) : bool := has_range_word false s.

(** [/^\d+([.,]\d+)?\s+[a-zA-Z]+/] *)
Definition hasEnglishWordsAfterNumber (s : str) : bool :=
  match number_token s with
  | Some r =>
      match many1 is_space r with
      | Some (c :: _) => is_alpha c
      | _ => false
      end
  | None => false
  end.

(** The characters of the class [[\d\s.,+\-*/=^_(){}\\a-zA-Z]]; 92 is the
    backslash. *)
Definition is_latex_char (c : char) : bool :=
  is_digit c || is_space c
  || existsb (N.eqb c) (lit ".,+-*/=^_(){}" ++ [92%N])
  || is_alpha c.

(** [/[^\d\s.,+\-*/=^_(){}\\a-zA-Z]/] *)
Definition hasNonLatexToken (s : str) : bool :=
  existsb (fun c => negb (is_latex_char c)) s.

(** The condition of the [if] in the inline callback. *)
Definition looksLikePlainText (trimmed : str) : bool :=
  isPureNumber trimmed
  || (startsWithNumber trimmed
      && (hasRangeOrCurrencyWords trimmed
          || hasEnglishWordsAfterNumber trimmed
          || hasNonLatexToken trimmed)).

(** ** The marker elements and the two callbacks *)

Definition blockMarker (escaped : str) : str :=
  lit "<div data-type=" ++ [QUOT] ++ lit "block-math" ++ [QUOT]
  ++ lit " data-latex=" ++ [QUOT] ++ escaped ++ [QUOT] ++ lit "></div>".

Definition inlineMarker (escaped : str) : str :=
  lit "<span data-type=" ++ [QUOT] ++ lit "inline-math" ++ [QUOT]
  ++ lit " data-latex=" ++ [QUOT] ++ escaped ++ [QUOT] ++ lit "></span>".

Definition blockReplacer (matched latex : str) : str :=
  let trimmed := trim latex in
  let escaped := escapeHtmlAttr trimmed in
  blockMarker escaped.

Definition inlineReplacer (matched latex : str) : str :=
  let trimmed := trim latex in
  if looksLikePlainText trimmed then matched
  else
    let escaped := escapeHtmlAttr trimmed in
    inlineMarker escaped.

(** ** Global replacement

    [text.replace(/re/g, callback)] walks the text from left to right.  At
    a position where the pattern matches, the callback's result replaces
    the match and the walk resumes right after it; elsewhere the code unit
    is copied.  [skip] counts the code units of the current match that are
    still to be passed over (every pattern here matches at least two code
    units). *)

Fixpoint replaceWith (m : str -> option (nat * str)) (f : str -> str -> str)
    (skip : nat) (s : str) : str :=
  match s with
  | [] => []
  | c :: t =>
      match skip with
      | S k => replaceWith m f k t
      | O =>
          match m s with
          | Some (len, cap) =>
              f (firstn len s) cap ++ replaceWith m f (pred len) t
          | None => c :: replaceWith m f 0 t
          end
      end
  end.

(** The sentinel [\u0000MATH_PLACEHOLDER_${idx}\u0000]. *)
Definition sentinel (idx : nat) : str :=
  [NUL] ++ lit "MATH_PLACEHOLDER_"
  ++ lit (NilEmpty.string_of_uint (Nat.to_uint idx)) ++ [NUL].

(** [savePlaceholder]: push the literal, answer the sentinel of its index. *)
Definition savePlaceholder (raw : str) (placeholders : list str)
  : str * list str :=
  (sentinel (length placeholders), placeholders ++ [raw]).

(** [text.replace(/re/g, (m) => savePlaceholder(m))]: the same walk, with
    the side table threaded through the calls in match order. *)
Fixpoint protectWith (m : str -> option nat) (skip : nat) (s : str)
    (placeholders : list str) : str * list str :=
  match s with
  | [] => ([], placeholders)
  | c :: t =>
      match skip with
      | S k => protectWith m k t placeholders
      | O =>
          match m s with
          | Some len =>
              let '(tok, ps1) := savePlaceholder (firstn len s) placeholders in
              let '(r, ps2) := protectWith m (pred len) t ps1 in
              (tok ++ r, ps2)
          | None =>
              let '(r, ps1) := protectWith m 0 t placeholders in
              (c :: r, ps1)
          end
      end
  end.

(** ** Restoring: [replaceAll] with a replacement text

    [restored.replaceAll(sentinel, value)] passes [value] as a replacement
    {e text}, not as a callback, so ECMAScript's GetSubstitution expands
    the dollar patterns in it: [$$] gives one dollar sign, [$&] the matched
    text, [$`] the part of the searched string before the match, [$'] the
    part after it.  With a string pattern there are no captures, so a
    dollar sign before a digit or before [<] stands for itself, as does any
    other code unit. *)
Fixpoint getSubstitution (matched before after template : str) : str :=
  match template with
  | [] => []
  | c :: t =>
      if (c =? DOLLAR)%N then
        match t with
        | d :: t' =>
            if (d =? DOLLAR)%N then
              DOLLAR :: getSubstitution matched before after t'
            else if (d =? AMP)%N then
              matched ++ getSubstitution matched before after t'
            else if (d =? BACKTICK)%N then
              before ++ getSubstitution matched before after t'
            else if (d =? APOS)%N then
              after ++ getSubstitution matched before after t'
            else DOLLAR :: getSubstitution matched before after t
        | [] => [DOLLAR]
        end
      else c :: getSubstitution matched before after t
  end.

(** The walk of [whole.replaceAll(pat, template)] from position [pos]; [s]
    is the part of [whole] from [pos] on.  Occurrences are taken from left
    to right and do not overlap.  The search text is a sentinel, never
    empty. *)
Fixpoint replaceAllFrom (whole pat template : str) (pos skip : nat) (s : str)
  : str :=
  match s with
  | [] => []
  | c :: t =>
      match skip with
      | S k => replaceAllFrom whole pat template (S pos) k t
      | O =>
          if starts pat s then
            getSubstitution pat (firstn pos whole)
              (skipn (pos + length pat) whole) template
            ++ replaceAllFrom whole pat template (S pos) (pred (length pat)) t
          else c :: replaceAllFrom whole pat template (S pos) 0 t
      end
  end.

Definition replaceAll (pat template : str) (s : str) : str :=
  replaceAllFrom s pat template 0 0 s.

(** [placeholders.forEach((value, idx) => { restored = ... })], from index
    [idx] on. *)
Fixpoint restoreFrom (idx : nat) (placeholders : list str) (restored : str)
  : str :=
  match placeholders with
  | [] => restored
  | value :: rest =>
      restoreFrom (S idx) rest (replaceAll (sentinel idx) value restored)
  end.

(** ** preprocessMathInMarkdown *)

Definition protectCode (markdown : str) : str * list str :=
  let '(r1, ps1) := protectWith match_tilde 0 markdown [] in
  protectWith match_backtick 0 r1 ps1.

Definition replaceBlockMath (s : str) : str :=
  replaceWith match_block blockReplacer 0 s.

Definition replaceInlineMath (s : str) : str :=
  replaceWith match_inline inlineReplacer 0 s.

Definition preprocessMathInMarkdown (markdown : str) : str :=
  let '(result, placeholders) := protectCode markdown in
  let result := replaceBlockMath result in
  let result := replaceInlineMath result in
  restoreFrom 0 placeholders result.

(** ** The serializer side and the reading of a marker *)

(** A node of the document tree, with the fields the statements below
    read: the type tag, the [latex] attribute and the children. *)
#[local] Unset Elimination Schemes.
Inductive Node : Type :=
  mkNode { ntype : string; nlatex : option str; ncontent : option (list Node) }.
#[local] Set Elimination Schemes.

Section Serializer.

(** The dispatch over the children of the root by node type; its layout
    rules are not part of the statements below. *)
Variable serializeBlocks : list Node -> str.

(** Modelled from the spec: [jsonContentToMarkdown] of
    features/import-export/utils/markdown-serializer, which is not among
    the sources.  Section 4.2: it returns the empty text if the type of
    the root is not doc or the content of the root is absent or empty. *)
Definition jsonContentToMarkdown (root : Node) : str :=
  if negb (String.eqb (ntype root) "doc") then []
  else
    match ncontent root with
    | None => []
    | Some [] => []
    | Some (c :: cs) => serializeBlocks (c :: cs)
    end.

End Serializer.

(** Modelled from the spec: the text the serializer emits for an
    [inlineMath] node.  Section 4.2: a dollar sign, the latex, a dollar
    sign; a node whose latex is empty or blank contributes nothing. *)
Definition serializeInlineMath (latex : str) : str :=
  if forallb is_space latex then [] else [DOLLAR] ++ latex ++ [DOLLAR].

(** Modelled from the spec: the text the serializer emits for a
    [blockMath] node.  Section 4.2: a block delimited by two lines of two
    dollar signs around the latex; empty latex contributes nothing. *)
Definition serializeBlockMath (latex : str) : str :=
  if forallb is_space latex then []
  else DOLLARS ++ [NL] ++ latex ++ [NL] ++ DOLLARS.

(** [text.replaceAll(pat, rep)] for a replacement text without [$]. *)
Fixpoint replaceText (pat rep : str) (skip : nat) (s : str) : str :=
  match s with
  | [] => []
  | c :: t =>
      match skip with
      | S k => replaceText pat rep k t
      | O =>
          if starts pat s
          then rep ++ replaceText pat rep (pred (length pat)) t
          else c :: replaceText pat rep 0 t
      end
  end.

(** The reference decoder of an attribute value: the four entities are
    turned back into their characters, the ampersand last. *)
Definition decodeHtmlAttr (s : str) : str :=
  replaceText (lit "&amp;") [AMP] 0
    (replaceText (lit "&gt;") [GT] 0
       (replaceText (lit "&lt;") [LT] 0
          (replaceText (lit "&quot;") [QUOT] 0 s))).

Fixpoint takeUntil (c : char) (s : str) : str :=
  match s with
  | [] => []
  | x :: t => if (x =? c)%N then [] else x :: takeUntil c t
  end.

Definition DATA_LATEX : str := lit " data-latex=" ++ [QUOT].

(** The value of the [data-latex] attribute of a marker element: the text
    between the opening quote of the attribute and the next quote. *)
Definition dataLatex (marker : str) : option str :=
  match indexOf DATA_LATEX marker with
  | Some i => Some (takeUntil QUOT (skipn (i + length DATA_LATEX) marker))
  | None => None
  end.

(** The latex a reader of the markup finds on a marker element: the
    decoded value of its [data-latex] attribute. *)
Definition markerLatex (marker : str) : option str :=
  option_map decodeHtmlAttr (dataLatex marker).

(** ** Predicates of the statements *)

(** The entity of one character, the four replacements done at once. *)
Definition escapeChar (c : char) : str :=
  if (c =? AMP)%N then lit "&amp;"
  else if (c =? QUOT)%N then lit "&quot;"
  else if (c =? LT)%N then lit "&lt;"
  else if (c =? GT)%N then lit "&gt;"
  else [c].

(** The escaping restricted to the characters listed in [cs]. *)
Definition escapeOnly (cs : list char) (c : char) : str :=
  if existsb (N.eqb c) cs then escapeChar c else [c].

(** No match of [m] starts inside the prefix [p] of the text [p ++ q]. *)
Fixpoint quiet {A : Type} (m : str -> option A) (p q : str) : Prop :=
  match p with
  | [] => True
  | _ :: p' => m (p ++ q) = None /\ quiet m p' q
  end.

(** The text that follows the rest of a line: nothing, or a newline and
    what comes after it. *)
Definition line_end (tail : str) : Prop :=
  match tail with
  | [] => True
  | c :: _ => c = NL
  end.

(** ** The patterns of the source, read by a backtracking matcher

    The matchers above are written by hand.  To compare them with the
    patterns as they stand in the source, the patterns are also given as
    syntax trees and run by a matcher that follows ECMAScript's
    backtracking semantics (continuation-passing, as in the language
    specification: a quantifier retries its continuation after each
    iteration, greedy ones after the longest run first). *)

Inductive regex : Type :=
| Chr (p : char -> bool)
| Seq (a b : regex)
| Alt (a b : regex)
| Rep (greedy : bool) (min : nat) (max : option nat) (a : regex)
| Grp (a : regex)
| Ref
| Bol
| Eol
| Wb.

(** The text before the current position (nearest code unit first), the
    text from it on, and what group 1 holds. *)
Record mstate : Type :=
  mkState { before : str; after : str; captured : option str }.

Definition matcher : Type :=
  mstate -> (mstate -> option mstate) -> option mstate.

Definition orElse (a b : option mstate) : option mstate :=
  match a with Some r => Some r | None => b end.

(** RepeatMatcher: an iteration that matches the empty text once [min] is
    reached is refused. *)
Fixpoint repeatMatcher (fuel : nat) (ma : matcher) (greedy : bool)
    (min : nat) (max : option nat) : matcher :=
  fun st k =>
    match fuel with
    | 0 => None
    | S fuel' =>
        match max with
        | Some 0 => k st
        | _ =>
            let d := fun st' =>
              if (min =? 0) && (length (after st') =? length (after st))
              then None
              else repeatMatcher fuel' ma greedy (pred min)
                     (option_map pred max) st' k in
            if 0 <? min then ma st d
            else if greedy then orElse (ma st d) (k st)
            else orElse (k st) (ma st d)
        end
    end.

Fixpoint compile (fuel : nat) (r : regex) : matcher :=
  match r with
  | Chr p => fun st k =>
      match after st with
      | c :: t =>
          if p c then k (mkState (c :: before st) t (captured st)) else None
      | [] => None
      end
  | Seq a b => fun st k => compile fuel a st (fun st' => compile fuel b st' k)
  | Alt a b => fun st k => orElse (compile fuel a st k) (compile fuel b st k)
  | Rep g mn mx a => repeatMatcher fuel (compile fuel a) g mn mx
  | Grp a => fun st k =>
      compile fuel a st (fun st' =>
        k (mkState (before st') (after st')
             (Some (firstn (length (after st) - length (after st'))
                      (after st)))))
  | Ref => fun st k =>
      match captured st with
      | None => k st
      | Some c =>
          if starts c (after st)
          then k (mkState (rev c ++ before st) (skipn (length c) (after st))
                    (captured st))
          else None
      end
  | Bol => fun st k => match before st with [] => k st | _ => None end
  | Eol => fun st k => match after st with [] => k st | _ => None end
  | Wb => fun st k =>
      let a := match before st with c :: _ => is_word c | [] => false end in
      let b := match after st with c :: _ => is_word c | [] => false end in
      if xorb a b then k st else None
  end.

(** One attempt at one position: the length of the match and group 1.
    Every iteration of a quantifier takes a code unit or lowers [min], so
    the fuel is never used up on the patterns below. *)
Definition match_here (r : regex) (bef aft : str)
  : option (nat * option str) :=
  match compile (length aft + 10) r (mkState bef aft None) Some with
  | Some st => Some (length aft - length (after st), captured st)
  | None => None
  end.

(** [re.test(s)]: an attempt at each position in turn. *)
Fixpoint test_from (r : regex) (bef aft : str) : bool :=
  match match_here r bef aft with
  | Some _ => true
  | None =>
      match aft with
      | [] => false
      | c :: t => test_from r (c :: bef) t
      end
  end.

Definition test (r : regex) (s : str) : bool := test_from r [] s.

Definition chr (c : char) : regex := Chr (N.eqb c).
Definition any : regex := Chr (fun _ => true).
Definition star (a : regex) : regex := Rep true 0 None a.
Definition plus (a : regex) : regex := Rep true 1 None a.
Definition lazy_star (a : regex) : regex := Rep false 0 None a.
Definition lazy_plus (a : regex) : regex := Rep false 1 None a.
Definition opt (a : regex) : regex := Rep true 0 (Some 1) a.
Definition empty : regex := Rep true 0 (Some 0) any.

Fixpoint seqs (l : list regex) : regex :=
  match l with
  | [] => empty
  | [a] => a
  | a :: t => Seq a (seqs t)
  end.

Fixpoint alts (l : list regex) : regex :=
  match l with
  | [] => Chr (fun _ => false)
  | [a] => a
  | a :: t => Alt a (alts t)
  end.

(** A literal word, and the same under the [i] flag. *)
Definition word (s : string) : regex := seqs (map chr (lit s)).
Definition word_i (s : string) : regex :=
  seqs (map (fun c => Chr (fun x => (upper x =? upper c)%N)) (lit s)).

Definition digit : regex := Chr is_digit.
Definition space : regex := Chr is_space.
Definition dot_or_comma : regex := Chr (fun c => is_dot c || is_comma c).

(** [/~~~[\s\S]*?~~~/] *)
Definition RE_TILDE : regex := seqs [word "~~~"; lazy_star any; word "~~~"].

(** [/(`+)[\s\S]*?\1/] *)
Definition RE_BACKTICK : regex :=
  seqs [Grp (plus (chr BACKTICK)); lazy_star any; Ref].

(** [/\$\$([\s\S]*?)\$\$/] *)
Definition RE_BLOCK : regex := seqs [word "$$"; Grp (lazy_star any); word "$$"].

(** [/\$([^$\n]+?)\$/] *)
Definition RE_INLINE : regex :=
  seqs [chr DOLLAR;
        Grp (lazy_plus (Chr (fun c => negb (c =? DOLLAR)%N && negb (c =? NL)%N)));
        chr DOLLAR].

(** [/^\d+([.,]\d+)?/] *)
Definition RE_STARTS_WITH_NUMBER : regex :=
  seqs [Bol; plus digit; opt (Seq dot_or_comma (plus digit))].

(** [/^(?:\d{1,3}(?:,\d{3})+|\d+)(?:\.\d+)?\s*$/] *)
Definition RE_PURE_NUMBER : regex :=
  seqs [Bol;
        Alt (Seq (Rep true 1 (Some 3) digit)
               (plus (Seq (Chr is_comma) (Rep true 3 (Some 3) digit))))
            (plus digit);
        opt (Seq (Chr is_dot) (plus digit));
        star space;
        Eol].

(** [/\b(?:and|or|to|per|each)\b/i] *)
Definition RE_RANGE_WORDS : regex :=
  seqs [Wb;
        alts [word_i "and"; word_i "or"; word_i "to"; word_i "per";
              word_i "each"];
        Wb].

(** [/^\d+([.,]\d+)?\s+[a-zA-Z]+/] *)
Definition RE_WORDS_AFTER_NUMBER : regex :=
  seqs [Bol; plus digit; opt (Seq dot_or_comma (plus digit)); plus space;
        plus (Chr is_alpha)].

(** [/[^\d\s.,+\-*/=^_(){}\\a-zA-Z]/] *)
Definition RE_NON_LATEX : regex := Chr (fun c => negb (is_latex_char c)).

(** All texts over an alphabet with at most [n] code units. *)
Fixpoint words_upto (alphabet : list char) (n : nat) : list str :=
  match n with
  | 0 => [[]]
  | S n' =>
      [] :: flat_map (fun w => map (fun c => c :: w) alphabet)
              (words_upto alphabet n')
  end.

Fixpoint str_eqb (a b : str) : bool :=
  match a, b with
  | [], [] => true
  | x :: a', y :: b' => (x =? y)%N && str_eqb a' b'
  | _, _ => false
  end.

Definition same_length (a : option (nat * option str)) (b : option nat)
  : bool :=
  match a, b with
  | Some (x, _), Some y => x =? y
  | None, None => true
  | _, _ => false
  end.

Definition same_match (a : option (nat * option str)) (b : option (nat * str))
  : bool :=
  match a, b with
  | Some (x, Some c), Some (y, c') => (x =? y) && str_eqb c c'
  | None, None => true
  | _, _ => false
  end.

(** The text has no white space at its start and none at its end. *)
Definition no_outer_space (s : str) : Prop :=
  dropWhile is_space s = s /\ dropWhile is_space (rev s) = rev s.

(** A replacement text in which no dollar sign starts one of the patterns
    [$$], [$&], [$`], [$']: every dollar sign is the last code unit or is
    followed by some other code unit. *)
Fixpoint inert (template : str) : bool :=
  match template with
  | [] => true
  | c :: t =>
      if (c =? DOLLAR)%N then
        match t with
        | d :: _ =>
            negb ((d =? DOLLAR) || (d =? AMP) || (d =? BACKTICK) || (d =? APOS))%N
            && inert t
        | [] => true
        end
      else inert t
  end.

(** One of the four characters [escapeHtmlAttr] replaces. *)
Definition is_special (c : char) : bool :=
  ((c =? AMP) || (c =? QUOT) || (c =? LT) || (c =? GT))%N.

Definition starts_with_digit (s : str) : bool :=
  match s with
  | c :: _ => is_digit c
  | [] => false
  end.

(** * Other parts of the blog *)

(** ** The table of contents of the fuwari theme *)

Record TableOfContentsItem : Type :=
  mkItem { item_id : str; item_text : str; level : Z }.

(** [minDepth]: 10 for no headers, else the loop over the headers that
    lowers [min] from 10. *)
Definition minDepth (headers : list TableOfContentsItem) : Z :=
  if (length headers =? 0)%nat then 10%Z
  else
    fold_left
      (fun min heading => if (level heading <? min)%Z then level heading else min)
      headers 10%Z.

Definition maxLevel : Z := 3%Z.

Definition HASH : char := 35%N.

(** [text.lastIndexOf(c)] for a one-character search text; [i] is the index
    of the head of [text].  The answer is -1 when [c] does not occur. *)
Fixpoint lastIndexOfFrom (c : char) (text : str) (i : Z) : Z :=
  match text with
  | [] => (-1)%Z
  | x :: t =>
      let later := lastIndexOfFrom c t (i + 1)%Z in
      if (later =? -1)%Z then (if (x =? c)%N then i else (-1)%Z) else later
  end.

Definition lastIndexOf (c : char) (text : str) : Z := lastIndexOfFrom c text 0%Z.

Definition removeTailingHash (text : str) : str :=
  let lastIndexOfHash := lastIndexOf HASH text in
  if negb (lastIndexOfHash =? -1)%Z
     && (lastIndexOfHash =? Z.of_nat (length text) - 1)%Z
  then firstn (Z.to_nat lastIndexOfHash) text
  else text.

(** The entries the component renders, and the three styles. *)
Definition visibleHeaders (headers : list TableOfContentsItem)
  : list TableOfContentsItem :=
  filter (fun heading => (level heading <? minDepth headers + maxLevel)%Z)
    headers.

Definition isH1 (headers : list TableOfContentsItem) (h : TableOfContentsItem) :=
  (level h =? minDepth headers)%Z.
Definition isH2 (headers : list TableOfContentsItem) (h : TableOfContentsItem) :=
  (level h =? minDepth headers + 1)%Z.
Definition isH3 (headers : list TableOfContentsItem) (h : TableOfContentsItem) :=
  (level h =? minDepth headers + 2)%Z.

(** [active[i]], read at indices from 0 on only; past the end it is
    [undefined], which is falsy. *)
Definition activeAt (active : list bool) (i : Z) : bool :=
  nth (Z.to_nat i) active false.

(** [while (i >= 0 && !active[i]) i--]; each turn lowers [i], so
    [length active + 1] turns are enough. *)
Fixpoint skipInactive (fuel : nat) (active : list bool) (i : Z) : Z :=
  match fuel with
  | 0 => i
  | S fuel' =>
      if (0 <=? i)%Z && negb (activeAt active i)
      then skipInactive fuel' active (i - 1)%Z
      else i
  end.

(** [while (i >= 0 && active[i]) { minIdx = ...; maxIdx = ...; i-- }] *)
Fixpoint collectActive (fuel : nat) (active : list bool) (i minIdx maxIdx : Z)
  : Z * Z :=
  match fuel with
  | 0 => (minIdx, maxIdx)
  | S fuel' =>
      if (0 <=? i)%Z && activeAt active i
      then collectActive fuel' active (i - 1)%Z (Z.min minIdx i) (Z.max maxIdx i)
      else (minIdx, maxIdx)
  end.

(** [for (let j = lo; j <= hi; j++) push(j)] *)
Definition range (lo hi : Z) : list Z :=
  map (fun k => (lo + Z.of_nat k)%Z) (seq 0 (Z.to_nat (hi - lo + 1))).

(** The last contiguous block of active headings: the part of
    [computeActiveHeadings] after the viewport tests, with [fuel] turns
    allowed to each loop.  The function returns at once when there is no
    header, so [active] has at least one entry here. *)
Definition lastActiveBlockWith (fuel : nat) (active : list bool) : list Z :=
  let n := Z.of_nat (length active) in
  let i := skipInactive fuel active (n - 1)%Z in
  let '(minIdx, maxIdx) := collectActive fuel active i (n - 1)%Z (-1)%Z in
  if (minIdx <=? maxIdx)%Z then range minIdx maxIdx else [].

Definition lastActiveBlock (active : list bool) : list Z :=
  lastActiveBlockWith (S (length active)) active.

(** ** Pagination of the friend-links pages *)

(** An entry of the pagination bar: a page number or the text of three
    dots. *)
Inductive PageItem : Type :=
| Page (n : Z)
| Ellipsis.

(** [getPageNumbers(current, total)]; [Array.from({ length: total }, ...)]
    is empty for a total below 1. *)
Definition getPageNumbers (current total : Z) : list PageItem :=
  if (total <=? 7)%Z then
    map (fun i => Page (Z.of_nat i + 1)) (seq 0 (Z.to_nat total))
  else if (current <=? 4)%Z then
    [Page 1; Page 2; Page 3; Page 4; Page 5; Ellipsis; Page total]
  else if (current >=? total - 3)%Z then
    [Page 1; Ellipsis; Page (total - 4); Page (total - 3); Page (total - 2);
     Page (total - 1); Page total]
  else
    [Page 1; Ellipsis; Page (current - 1); Page current; Page (current + 1);
     Ellipsis; Page total].

(** The bar read from page [prev] on: a number that follows a number is
    the next page, and an ellipsis stands for at least two pages left
    out. *)
Fixpoint bar_from (prev : Z) (items : list PageItem) : Prop :=
  match items with
  | [] => True
  | Page n :: rest => n = (prev + 1)%Z /\ bar_from n rest
  | Ellipsis :: Page n :: rest => (prev + 3 <= n)%Z /\ bar_from n rest
  | Ellipsis :: _ => False
  end.

(** [Math.ceil(n / pageSize)] for a count [n] and a positive page size.
    The count is the length of an array, below 2^32, where the division
    of doubles and the ceiling give the rounded-up quotient. *)
Definition totalPages (pageSize n : nat) : nat := (n + pageSize - 1) / pageSize.

(** [links.slice((currentPage - 1) * PAGE_SIZE, currentPage * PAGE_SIZE)]
    for a page from 1 on. *)
Definition paginatedLinks {A : Type} (pageSize : nat) (links : list A)
    (currentPage : nat) : list A :=
  firstn (currentPage * pageSize - (currentPage - 1) * pageSize)
    (skipn ((currentPage - 1) * pageSize) links).

(** The two buttons: [Math.max(1, p - 1)] and [Math.min(totalPages, p + 1)]. *)
Definition previousPage (p : Z) : Z := Z.max 1 (p - 1).
Definition nextPage (total p : Z) : Z := Z.min total (p + 1).

(** ** Publish dates *)

(** [a > b] on strings: the first code unit that differs decides, and a
    text is greater than each of its proper prefixes. *)
Fixpoint str_gtb (a b : str) : bool :=
  match a, b with
  | [], _ => false
  | _ :: _, [] => true
  | x :: a', y :: b' =>
      if (y <? x)%N then true
      else if (x <? y)%N then false
      else str_gtb a' b'
  end.

(** [isFuturePublishDate]: [publishedAtISO.slice(0, 10) > clientToday]. *)
Definition isFuturePublishDate (publishedAtISO clientToday : str) : bool :=
  str_gtb (firstn 10 publishedAtISO) clientToday.

(** Numbers written with two and with four decimal digits; 48 is the
    digit zero. *)
Definition two_digits (n : N) : str := [(48 + n / 10)%N; (48 + n mod 10)%N].

Definition four_digits (n : N) : str :=
  two_digits (n / 100) ++ two_digits (n mod 100).

(** A calendar date in the form YYYY-MM-DD, the first ten code units of
    an ISO time stamp; 45 is the hyphen. *)
Definition isoDate (y m d : N) : str :=
  four_digits y ++ [45%N] ++ two_digits m ++ [45%N] ++ two_digits d.

(** ** The store of formula-modal openers

    The module keeps a [Map] from instance keys (symbols, compared by
    identity) to openers and the key of the active editor.  A [Map] keeps
    its entries in the order of first insertion; it is a list of pairs with
    each key at most once.  An opener is named by a number. *)

Definition symbol := nat.
Definition opener := nat.

Record FormulaModalStore : Type :=
  mkStore { openers : list (symbol * opener); activeOpenerKey : option symbol }.

Definition emptyStore : FormulaModalStore := mkStore [] None.

(** [map.has(key)] and [map.get(key)] *)
Fixpoint mapGet (key : symbol) (m : list (symbol * opener)) : option opener :=
  match m with
  | [] => None
  | (k, fn) :: rest => if k =? key then Some fn else mapGet key rest
  end.

Definition mapHas (key : symbol) (m : list (symbol * opener)) : bool :=
  match mapGet key m with Some _ => true | None => false end.

(** [map.set(key, fn)]: a key already present keeps its place. *)
Fixpoint mapSet (key : symbol) (fn : opener) (m : list (symbol * opener))
  : list (symbol * opener) :=
  match m with
  | [] => [(key, fn)]
  | (k, f) :: rest =>
      if k =? key then (k, fn) :: rest else (k, f) :: mapSet key fn rest
  end.

(** [map.delete(key)] *)
Fixpoint mapDelete (key : symbol) (m : list (symbol * opener))
  : list (symbol * opener) :=
  match m with
  | [] => []
  | (k, f) :: rest =>
      if k =? key then rest else (k, f) :: mapDelete key rest
  end.

Definition addFormulaModalOpener (key : symbol) (fn : opener)
    (s : FormulaModalStore) : FormulaModalStore :=
  mkStore (mapSet key fn (openers s)) (activeOpenerKey s).

Definition removeFormulaModalOpener (key : symbol) (s : FormulaModalStore)
  : FormulaModalStore :=
  mkStore (mapDelete key (openers s))
    (match activeOpenerKey s with
     | Some k => if k =? key then None else Some k
     | None => None
     end).

Definition setActiveFormulaModalOpenerKey (key : symbol)
    (s : FormulaModalStore) : FormulaModalStore :=
  mkStore (openers s) (Some key).

Definition getActiveFormulaModalOpenerKey (s : FormulaModalStore)
  : option symbol := activeOpenerKey s.

(** What a call of [openFormulaModalForEdit] does: it warns that no opener
    is registered, calls the opener of the target, calls the first opener
    as a fallback (after a warning), or returns without a word. *)
Inductive Outcome : Type :=
| WarnNoOpener
| CallTarget (fn : opener)
| CallFallback (fn : opener)
| Silent.

(** [openFormulaModalForEdit(payload)], by the [instanceKey] of the
    payload. *)
Definition openFormulaModalForEdit (instanceKey : option symbol)
    (s : FormulaModalStore) : Outcome :=
  if length (openers s) =? 0 then WarnNoOpener
  else
    let targetKey :=
      match instanceKey with
      | Some k => Some k
      | None => activeOpenerKey s
      end in
    match targetKey with
    | Some k =>
        if mapHas k (openers s) then
          match mapGet k (openers s) with
          | Some targetOpener => CallTarget targetOpener
          | None => Silent
          end
        else
          match openers s with
          | (_, firstOpener) :: _ => CallFallback firstOpener
          | [] => Silent
          end
    | None =>
        match openers s with
        | (_, firstOpener) :: _ => CallFallback firstOpener
        | [] => Silent
        end
    end.

(** The operations on the store, and the stores they reach from the
    empty one. *)
Inductive StoreOp : Type :=
| OpAdd (key : symbol) (fn : opener)
| OpRemove (key : symbol)
| OpSetActive (key : symbol).

Definition applyOp (s : FormulaModalStore) (op : StoreOp) : FormulaModalStore :=
  match op with
  | OpAdd key fn => addFormulaModalOpener key fn s
  | OpRemove key => removeFormulaModalOpener key s
  | OpSetActive key => setActiveFormulaModalOpenerKey key s
  end.

Definition runFrom (s : FormulaModalStore) (ops : list StoreOp)
  : FormulaModalStore := fold_left applyOp ops s.

Definition runOps (ops : list StoreOp) : FormulaModalStore :=
  runFrom emptyStore ops.

(** The operations that register or unregister [key]. *)
Definition touches (key : symbol) (op : StoreOp) : bool :=
  match op with
  | OpAdd k _ => k =? key
  | OpRemove k => k =? key
  | OpSetActive _ => false
  end.

(** * Properties *)

(** ** Code units *)

Lemma starts_app (pat s : str) : starts pat (pat ++ s) = true.
Proof.
  induction pat as [|p pat IH]; simpl; [reflexivity|].
  now rewrite N.eqb_refl, IH.
Qed.

Lemma starts_head_neq (p c : char) (pat s : str) :
  p <> c -> starts (p :: pat) (c :: s) = false.
Proof.
  intros H; simpl. apply N.eqb_neq in H. now rewrite H.
Qed.

Lemma has_char_app (c : char) (a b : str) :
  has_char c (a ++ b) = has_char c a || has_char c b.
Proof. apply existsb_app. Qed.

Lemma has_char_cons (c x : char) (s : str) :
  has_char c (x :: s) = (c =? x)%N || has_char c s.
Proof. reflexivity. Qed.

Lemma has_char_false_cons (c x : char) (s : str) :
  has_char c (x :: s) = false -> x <> c /\ has_char c s = false.
Proof.
  rewrite has_char_cons. intros H. apply orb_false_elim in H as [H1 H2].
  split; [|exact H2]. apply N.eqb_neq in H1. congruence.
Qed.

Lemma has_char_false_app (c : char) (a b : str) :
  has_char c (a ++ b) = false ->
  has_char c a = false /\ has_char c b = false.
Proof. rewrite has_char_app. apply orb_false_elim. Qed.

Lemma indexOf_no_char (p : char) (pat s : str) :
  has_char p s = false -> indexOf (p :: pat) s = None.
Proof.
  induction s as [|c s IH]; intros H; [reflexivity|].
  apply has_char_false_cons in H as [Hc Hs].
  cbn [indexOf]. rewrite starts_head_neq by congruence.
  now rewrite IH.
Qed.

Lemma contains_cons_false (pat : str) (c : char) (s : str) :
  contains pat (c :: s) = false ->
  starts pat (c :: s) = false /\ contains pat s = false.
Proof.
  unfold contains. cbn [indexOf].
  destruct (starts pat (c :: s)); [discriminate|].
  destruct (indexOf pat s); [discriminate|]. now split.
Qed.

Lemma contains_app_r (pat a b : str) :
  contains pat (a ++ b) = false -> contains pat b = false.
Proof.
  induction a as [|c a IH]; simpl; intros H; [exact H|].
  apply contains_cons_false in H as [_ H]. now apply IH.
Qed.

(** ** The walks *)

Section Walks.

Variables (m : str -> option (nat * str)) (f : str -> str -> str).

Lemma replaceWith_skip (x post : str) :
  replaceWith m f (length x) (x ++ post) = replaceWith m f 0 post.
Proof.
  induction x as [|c x IH]; simpl; [destruct post; reflexivity|exact IH].
Qed.

Lemma replaceWith_quiet (p q : str) :
  quiet m p q ->
  replaceWith m f 0 (p ++ q) = p ++ replaceWith m f 0 q.
Proof.
  induction p as [|c p IH]; simpl; intros H; [reflexivity|].
  destruct H as [H1 H2]. rewrite H1. now rewrite IH.
Qed.

Lemma replaceWith_match (c : char) (x post cap : str) :
  m ((c :: x) ++ post) = Some (length (c :: x), cap) ->
  replaceWith m f 0 ((c :: x) ++ post)
  = f (c :: x) cap ++ replaceWith m f 0 post.
Proof.
  intros H. cbn [replaceWith app]. cbn [app] in H. rewrite H.
  change (c :: x ++ post) with ((c :: x) ++ post).
  rewrite firstn_app, firstn_all, Nat.sub_diag, firstn_O, app_nil_r.
  cbn [length pred]. now rewrite replaceWith_skip.
Qed.

Lemma replaceWith_id (s : str) :
  quiet m s [] -> replaceWith m f 0 s = s.
Proof.
  intros H. rewrite <- (app_nil_r s) at 1.
  rewrite replaceWith_quiet by exact H. simpl. apply app_nil_r.
Qed.

End Walks.

Lemma protectWith_quiet (m : str -> option nat) (p q : str) (ps : list str) :
  quiet m p q ->
  protectWith m 0 (p ++ q) ps
  = (p ++ fst (protectWith m 0 q ps), snd (protectWith m 0 q ps)).
Proof.
  induction p as [|c p IH]; simpl; intros H.
  - now destruct (protectWith m 0 q ps).
  - destruct H as [H1 H2]. rewrite H1. rewrite IH by exact H2. reflexivity.
Qed.

Lemma protectWith_id (m : str -> option nat) (s : str) (ps : list str) :
  quiet m s [] -> protectWith m 0 s ps = (s, ps).
Proof.
  intros H. rewrite <- (app_nil_r s) at 1.
  rewrite protectWith_quiet by exact H. simpl. now rewrite app_nil_r.
Qed.

(** ** Where the four patterns cannot match *)

Lemma match_inline_head (c : char) (s : str) :
  c <> DOLLAR -> match_inline (c :: s) = None.
Proof.
  intros H. apply N.eqb_neq in H. unfold match_inline.
  destruct s as [|c2 t]; [reflexivity|]. now rewrite H.
Qed.

Lemma match_block_head (c : char) (s : str) :
  c <> DOLLAR -> match_block (c :: s) = None.
Proof.
  intros H. unfold match_block, DOLLARS.
  rewrite starts_head_neq by congruence. reflexivity.
Qed.

Lemma match_backtick_head (c : char) (s : str) :
  c <> BACKTICK -> match_backtick (c :: s) = None.
Proof.
  intros H. apply N.eqb_neq in H. unfold match_backtick. simpl.
  now rewrite H.
Qed.

Lemma match_tilde_not_start (s : str) :
  starts TILDES s = false -> match_tilde s = None.
Proof. intros H. unfold match_tilde. now rewrite H. Qed.

Lemma quiet_no_char {A : Type} (m : str -> option A) (d : char) (p q : str) :
  (forall c s, c <> d -> m (c :: s) = None) ->
  has_char d p = false -> quiet m p q.
Proof.
  intros Hm. induction p as [|c p IH]; simpl; intros H; [exact I|].
  apply has_char_false_cons in H as [Hc Hp]. split; auto.
Qed.

Lemma quiet_tilde (p q : str) :
  contains TILDES (p ++ q) = false -> quiet match_tilde p q.
Proof.
  induction p as [|c p IH]; simpl; intros H; [exact I|].
  apply contains_cons_false in H as [H1 H2]. split; [|now apply IH].
  now apply match_tilde_not_start.
Qed.

Lemma protectCode_plain (s : str) :
  has_char BACKTICK s = false -> contains TILDES s = false ->
  protectCode s = (s, []).
Proof.
  intros Hb Ht. unfold protectCode.
  rewrite protectWith_id by (apply quiet_tilde; now rewrite app_nil_r).
  apply protectWith_id.
  apply quiet_no_char with (d := BACKTICK); auto using match_backtick_head.
Qed.

Lemma replaceBlockMath_plain (s : str) :
  has_char DOLLAR s = false -> replaceBlockMath s = s.
Proof.
  intros H. apply replaceWith_id.
  apply quiet_no_char with (d := DOLLAR); auto using match_block_head.
Qed.

Lemma replaceInlineMath_plain (s : str) :
  has_char DOLLAR s = false -> replaceInlineMath s = s.
Proof.
  intros H. apply replaceWith_id.
  apply quiet_no_char with (d := DOLLAR); auto using match_inline_head.
Qed.

(** Without code regions the pipeline is the two math passes. *)
Lemma preprocess_no_code (s : str) :
  has_char BACKTICK s = false -> contains TILDES s = false ->
  preprocessMathInMarkdown s = replaceInlineMath (replaceBlockMath s).
Proof.
  intros Hb Ht. unfold preprocessMathInMarkdown.
  rewrite protectCode_plain by assumption. reflexivity.
Qed.

(** C9. Preprocessing is the identity on a text with no dollar sign, no
    backtick and no run of three tildes. *)
Theorem preprocess_identity_on_math_free (s : str) :
  has_char DOLLAR s = false ->
  has_char BACKTICK s = false ->
  contains TILDES s = false ->
  preprocessMathInMarkdown s = s.
Proof.
  intros Hd Hb Ht. rewrite preprocess_no_code by assumption.
  rewrite replaceBlockMath_plain by assumption.
  now apply replaceInlineMath_plain.
Qed.

Lemma preprocess_identity_on_math_free_witness :
  preprocessMathInMarkdown (lit "Just plain text, with ~~ and a_b.")
  = lit "Just plain text, with ~~ and a_b.".
Proof.
  apply preprocess_identity_on_math_free; reflexivity.
Defined.

(** ** The inline pattern at a candidate *)

Lemma inline_rest_found (body post : str) :
  has_char DOLLAR body = false -> has_char NL body = false ->
  inline_rest (body ++ DOLLAR :: post) = Some body.
Proof.
  induction body as [|c body IH]; cbn [app inline_rest]; intros Hd Hn.
  - now rewrite N.eqb_refl.
  - apply has_char_false_cons in Hd as [Hd1 Hd2].
    apply has_char_false_cons in Hn as [Hn1 Hn2].
    apply N.eqb_neq in Hd1, Hn1.
    now rewrite Hd1, Hn1, IH.
Qed.

Lemma inline_rest_line_end (line tail : str) :
  has_char DOLLAR line = false -> line_end tail ->
  inline_rest (line ++ tail) = None.
Proof.
  induction line as [|c line IH]; cbn [app inline_rest]; intros Hd Ht.
  - destruct tail as [|c t]; [reflexivity|]. cbn in Ht. now subst c.
  - apply has_char_false_cons in Hd as [Hd1 Hd2].
    apply N.eqb_neq in Hd1. rewrite Hd1, IH by assumption.
    now destruct (c =? NL)%N.
Qed.

Lemma match_inline_candidate (interior post : str) :
  interior <> [] ->
  has_char DOLLAR interior = false -> has_char NL interior = false ->
  match_inline (([DOLLAR] ++ interior ++ [DOLLAR]) ++ post)
  = Some (length ([DOLLAR] ++ interior ++ [DOLLAR]), interior).
Proof.
  intros Hne Hd Hn. destruct interior as [|c body]; [congruence|].
  apply has_char_false_cons in Hd as [Hd1 Hd2].
  apply has_char_false_cons in Hn as [Hn1 Hn2].
  apply N.eqb_neq in Hd1, Hn1.
  cbn [app match_inline]. rewrite <- app_assoc. cbn [app].
  rewrite N.eqb_refl, Hd1, Hn1. cbn [andb negb].
  rewrite inline_rest_found by assumption.
  cbn [length]. rewrite length_app. cbn [length]. repeat f_equal; lia.
Qed.

(** C2. An inline candidate (a dollar sign, a non-empty interior with no
    dollar sign and no newline, a dollar sign) is matched by the inline
    pattern; with [s] the trimmed interior, the pass leaves the candidate
    as it stands exactly when [isPureNumber s] holds or [startsWithNumber s]
    holds together with one of the three other tests, and otherwise puts
    the inline marker carrying the escaped [s] in its place. *)
Theorem inline_candidate_classified (pre interior post : str) :
  interior <> [] ->
  has_char DOLLAR interior = false ->
  has_char NL interior = false ->
  has_char DOLLAR pre = false ->
  let candidate := [DOLLAR] ++ interior ++ [DOLLAR] in
  let s := trim interior in
  let plain :=
    isPureNumber s
    || (startsWithNumber s
        && (hasRangeOrCurrencyWords s
            || hasEnglishWordsAfterNumber s
            || hasNonLatexToken s)) in
  match_inline (candidate ++ post) = Some (length candidate, interior)
  /\ (inlineReplacer candidate interior = candidate <-> plain = true)
  /\ (plain = false ->
      inlineReplacer candidate interior = inlineMarker (escapeHtmlAttr s))
  /\ replaceInlineMath (pre ++ candidate ++ post)
     = pre
       ++ (if plain then candidate else inlineMarker (escapeHtmlAttr s))
       ++ replaceInlineMath post.
Proof.
  intros Hne Hd Hn Hpre candidate s plain.
  assert (Hm : match_inline (candidate ++ post)
               = Some (length candidate, interior))
    by now apply match_inline_candidate.
  assert (Hr : inlineReplacer candidate interior
               = if plain then candidate
                 else inlineMarker (escapeHtmlAttr s)) by reflexivity.
  split; [exact Hm|]. split; [|split].
  - rewrite Hr. destruct plain; split; intros H;
      try reflexivity; try discriminate.
  - intros H. rewrite Hr, H. reflexivity.
  - unfold replaceInlineMath. rewrite replaceWith_quiet.
    + f_equal.
      etransitivity;
        [exact (@replaceWith_match match_inline inlineReplacer
                  DOLLAR (interior ++ [DOLLAR]) post interior Hm)|].
      reflexivity.
    + apply quiet_no_char with (d := DOLLAR); auto using match_inline_head.
Qed.

Lemma inline_candidate_classified_witness :
  replaceInlineMath (lit "pay $5 and $10 or x=$a+b$.")
  = lit "pay $5 and $10 or x=" ++ inlineMarker (lit "a+b") ++ lit ".".
Proof.
  pose proof (inline_candidate_classified (lit "pay ") (lit "5 and ")
                (lit "10 or x=$a+b$.")
                ltac:(discriminate) eq_refl eq_refl eq_refl) as H.
  cbv zeta in H. destruct H as (_ & _ & _ & H).
  etransitivity; [exact H|]. reflexivity.
Defined.

(** ** Texts without a pattern *)

Lemma contains_cons (pat : str) (c : char) (s : str) :
  contains pat (c :: s) = starts pat (c :: s) || contains pat s.
Proof.
  unfold contains. cbn [indexOf].
  destruct (starts pat (c :: s)); [reflexivity|].
  now destruct (indexOf pat s).
Qed.

Lemma contains_no_char (p : char) (pat s : str) :
  has_char p s = false -> contains (p :: pat) s = false.
Proof. intros H. unfold contains. now rewrite indexOf_no_char. Qed.

Lemma contains_skip_prefix (p : char) (pat a b : str) :
  has_char p a = false ->
  contains (p :: pat) (a ++ b) = contains (p :: pat) b.
Proof.
  induction a as [|c a IH]; cbn [app]; intros H; [reflexivity|].
  apply has_char_false_cons in H as [Hc Ha].
  rewrite contains_cons, starts_head_neq by congruence.
  now apply IH.
Qed.

Lemma starts_run_app_r (p : char) (n : nat) (l b : str) :
  has_char p b = false ->
  starts (repeat p (S n)) (l ++ b) = starts (repeat p (S n)) l.
Proof.
  intros Hb. change (repeat p (S n)) with (p :: repeat p n).
  assert (Hnil : forall k, starts (p :: repeat p k) b = false).
  { intros k. destruct b as [|c b]; [reflexivity|].
    apply has_char_false_cons in Hb as [Hc _].
    apply starts_head_neq. congruence. }
  revert l. induction n as [|n IH]; intros [|c l]; cbn [app].
  - now rewrite Hnil.
  - reflexivity.
  - now rewrite Hnil.
  - cbn [repeat]. cbn [repeat] in IH.
    change (starts (p :: p :: repeat p n) (c :: l ++ b))
      with ((p =? c)%N && starts (p :: repeat p n) (l ++ b)).
    change (starts (p :: p :: repeat p n) (c :: l))
      with ((p =? c)%N && starts (p :: repeat p n) l).
    f_equal. apply IH.
Qed.

Lemma contains_run_app_r (p : char) (n : nat) (l b : str) :
  has_char p b = false ->
  contains (repeat p (S n)) (l ++ b) = contains (repeat p (S n)) l.
Proof.
  intros Hb. induction l as [|c l IH].
  - cbn [app]. change (repeat p (S n)) with (p :: repeat p n).
    now rewrite contains_no_char.
  - cbn [app]. rewrite !contains_cons, IH.
    change (c :: l ++ b) with ((c :: l) ++ b).
    now rewrite starts_run_app_r.
Qed.

Lemma quiet_no_start {A : Type} (m : str -> option A) (pat p q : str) :
  (forall s, starts pat s = false -> m s = None) ->
  contains pat (p ++ q) = false -> quiet m p q.
Proof.
  intros Hm. induction p as [|c p IH]; cbn [app quiet]; intros H; [exact I|].
  apply contains_cons_false in H as [H1 H2]. split; auto.
Qed.

Lemma match_block_not_start (s : str) :
  starts DOLLARS s = false -> match_block s = None.
Proof. intros H. unfold match_block. now rewrite H. Qed.

Lemma replaceBlockMath_no_dollars (s : str) :
  contains DOLLARS s = false -> replaceBlockMath s = s.
Proof.
  intros H. apply replaceWith_id.
  apply quiet_no_start with (pat := DOLLARS);
    [exact match_block_not_start|now rewrite app_nil_r].
Qed.

Lemma contains_dollars_candidate (interior : str) :
  interior <> [] -> has_char DOLLAR interior = false ->
  contains DOLLARS ([DOLLAR] ++ interior ++ [DOLLAR]) = false.
Proof.
  intros Hne Hd. cbn [app]. rewrite contains_cons.
  unfold DOLLARS at 2.
  rewrite (contains_skip_prefix DOLLAR [DOLLAR] interior [DOLLAR] Hd).
  rewrite orb_false_r.
  destruct interior as [|c body]; [congruence|].
  apply has_char_false_cons in Hd as [Hc _].
  cbn [app]. unfold DOLLARS. cbn [starts].
  apply N.eqb_neq in Hc. rewrite (N.eqb_sym DOLLAR c), Hc.
  apply andb_false_r.
Qed.

(** ** Trimming *)

Lemma dropWhile_all (p : char -> bool) (s : str) :
  forallb p s = true -> dropWhile p s = [].
Proof.
  induction s as [|c s IH]; cbn [forallb dropWhile]; intros H; [reflexivity|].
  apply andb_prop in H as [H1 H2]. now rewrite H1, IH.
Qed.

Lemma trim_blank (s : str) : forallb is_space s = true -> trim s = [].
Proof. intros H. unfold trim. now rewrite (dropWhile_all is_space s H). Qed.

Lemma blank_has_no (c : char) (s : str) :
  is_space c = false -> forallb is_space s = true -> has_char c s = false.
Proof.
  intros Hc. induction s as [|x s IH]; cbn [forallb]; intros H; [reflexivity|].
  apply andb_prop in H as [H1 H2]. rewrite has_char_cons, IH by exact H2.
  destruct (N.eqb_spec c x); [congruence|reflexivity].
Qed.

(** ** Blank inline candidates *)

(** C7 (amended). An inline candidate whose interior is not empty but
    holds white space only is classified as math: the pass puts an inline
    marker with an empty [data-latex] attribute in its place. *)
Theorem blank_inline_candidate_becomes_marker (interior : str) :
  interior <> [] ->
  forallb is_space interior = true ->
  has_char NL interior = false ->
  let candidate := [DOLLAR] ++ interior ++ [DOLLAR] in
  looksLikePlainText (trim interior) = false
  /\ inlineReplacer candidate interior = inlineMarker []
  /\ (forall pre post, has_char DOLLAR pre = false ->
      replaceInlineMath (pre ++ candidate ++ post)
      = pre ++ inlineMarker [] ++ replaceInlineMath post)
  /\ preprocessMathInMarkdown candidate = inlineMarker [].
Proof.
  intros Hne Hb Hn candidate.
  assert (Ht : trim interior = []) by now apply trim_blank.
  assert (Hd : has_char DOLLAR interior = false)
    by (apply blank_has_no; [reflexivity|exact Hb]).
  assert (H3 : forall pre post, has_char DOLLAR pre = false ->
      replaceInlineMath (pre ++ candidate ++ post)
      = pre ++ inlineMarker [] ++ replaceInlineMath post).
  { intros pre post Hpre.
    destruct (inline_candidate_classified pre interior post Hne Hd Hn Hpre)
      as (_ & _ & _ & H).
    cbv zeta in H. rewrite Ht in H. exact H. }
  split; [now rewrite Ht|]. split; [|split; [exact H3|]].
  - unfold inlineReplacer. now rewrite Ht.
  - assert (Hbt : has_char BACKTICK candidate = false).
    { unfold candidate. rewrite !has_char_app.
      rewrite (blank_has_no BACKTICK interior eq_refl Hb). reflexivity. }
    assert (Htl : has_char TILDE candidate = false).
    { unfold candidate. rewrite !has_char_app.
      rewrite (blank_has_no TILDE interior eq_refl Hb). reflexivity. }
    rewrite preprocess_no_code;
      [|exact Hbt|now apply contains_no_char].
    rewrite replaceBlockMath_no_dollars
      by now apply contains_dollars_candidate.
    specialize (H3 [] [] eq_refl). cbn [app] in H3.
    rewrite !app_nil_r in H3. exact H3.
Qed.

Lemma blank_inline_candidate_becomes_marker_witness :
  preprocessMathInMarkdown (lit "$ $") = inlineMarker [].
Proof.
  exact (proj2 (proj2 (proj2
    (blank_inline_candidate_becomes_marker (lit " ")
       ltac:(discriminate) eq_refl eq_refl)))).
Defined.

(** C7 as stated fails: the candidate with a single space as interior is
    not left unchanged, a marker element is emitted. *)
Lemma blank_inline_candidate_counterexample :
  lit " " <> []
  /\ forallb is_space (lit " ") = true
  /\ trim (lit " ") = []
  /\ preprocessMathInMarkdown (lit "$ $") <> lit "$ $"
  /\ contains (lit "<span data-type=")
       (preprocessMathInMarkdown (lit "$ $")) = true.
Proof.
  repeat split; try reflexivity; discriminate.
Qed.

(** ** Concrete texts *)

(** C3. The text with two prices goes through preprocessing unchanged: no
    marker element is emitted, so the renderer receives no math, and both
    prices are still in the text. *)
Theorem currency_text_is_kept :
  preprocessMathInMarkdown (lit "I have $5 and $10.")
  = lit "I have $5 and $10."
  /\ contains (lit "data-type=")
       (preprocessMathInMarkdown (lit "I have $5 and $10.")) = false
  /\ contains (lit "$5")
       (preprocessMathInMarkdown (lit "I have $5 and $10.")) = true
  /\ contains (lit "$10")
       (preprocessMathInMarkdown (lit "I have $5 and $10.")) = true.
Proof. repeat split; reflexivity. Qed.

(** C4. On the text of the test for inline code no marker is emitted, but
    the protected literal is not put back as it was: its last two
    characters, a dollar sign and a backtick, are read by [replaceAll] as
    the pattern for the text before the match. *)
Theorem code_span_literal_is_altered :
  preprocessMathInMarkdown (lit "Use `$x^2$` here.")
  = lit "Use `$x^2Use  here."
  /\ contains (lit "data-type=")
       (preprocessMathInMarkdown (lit "Use `$x^2$` here.")) = false
  /\ contains (lit "`$x^2$`")
       (preprocessMathInMarkdown (lit "Use `$x^2$` here.")) = false
  /\ fst (protectCode (lit "Use `$x^2$` here."))
     = lit "Use " ++ sentinel 0 ++ lit " here."
  /\ snd (protectCode (lit "Use `$x^2$` here.")) = [lit "`$x^2$`"].
Proof. repeat split; reflexivity. Qed.

(** C5. Three texts on which an extracted literal does not come back as it
    was: a code span that holds two dollar signs loses one of them; a code
    span around a tilde fence comes back with the sentinel of the fence,
    NUL characters included, in place of the fence; a text that holds the
    text of sentinel 0 has it replaced by the first literal. *)
Theorem sentinel_restore_failures :
  preprocessMathInMarkdown (lit "`$$`") = lit "`$`"
  /\ preprocessMathInMarkdown (lit "`a ~~~x~~~ b`")
     = lit "`a " ++ sentinel 0 ++ lit " b`"
  /\ preprocessMathInMarkdown (sentinel 0 ++ lit " `x`") = lit "`x` `x`"
  /\ preprocessMathInMarkdown (lit "`a` `b`MATH_PLACEHOLDER_0`c`")
     = lit "`a` " ++ [NUL] ++ lit "MATH_PLACEHOLDER_1`a`MATH_PLACEHOLDER_2"
       ++ [NUL].
Proof. repeat split; reflexivity. Qed.

(** ** The empty serialization *)

(** C8. Whatever the dispatch over the children does, the serializer
    returns the empty text for a root that is not a doc node and for a root
    whose content is absent or empty. *)
Theorem empty_serialization (serializeBlocks : list Node -> str)
    (root : Node) :
  ntype root <> "doc"%string \/ ncontent root = None \/ ncontent root = Some []
  -> jsonContentToMarkdown serializeBlocks root = [].
Proof.
  intros H. unfold jsonContentToMarkdown.
  destruct (String.eqb_spec (ntype root) "doc") as [E|E]; cbn [negb].
  - destruct H as [H|[H|H]]; [congruence| |]; now rewrite H.
  - reflexivity.
Qed.

Lemma empty_serialization_witness :
  jsonContentToMarkdown (fun _ => lit "x") (mkNode "paragraph" None None) = []
  /\ jsonContentToMarkdown (fun _ => lit "x") (mkNode "doc" None None) = [].
Proof.
  split.
  - apply empty_serialization. left. discriminate.
  - apply empty_serialization. right. left. reflexivity.
Defined.

(** ** Escaping and decoding *)

Lemma replaceChar_app (c : char) (rep a b : str) :
  replaceChar c rep (a ++ b) = replaceChar c rep a ++ replaceChar c rep b.
Proof. apply flat_map_app. Qed.

Lemma replaceChar_flat_map (c : char) (rep : str) (f : char -> str) (s : str) :
  replaceChar c rep (flat_map f s)
  = flat_map (fun x => replaceChar c rep (f x)) s.
Proof.
  induction s as [|x s IH]; cbn [flat_map]; [reflexivity|].
  now rewrite replaceChar_app, IH.
Qed.

Ltac char_cases c :=
  destruct (N.eqb_spec c AMP) as [->|?]; [reflexivity|];
  destruct (N.eqb_spec c QUOT) as [->|?]; [reflexivity|];
  destruct (N.eqb_spec c LT) as [->|?]; [reflexivity|];
  destruct (N.eqb_spec c GT) as [->|?]; [reflexivity|].

Ltac eqb_false :=
  repeat match goal with
    | H : ?a <> ?b |- context [(?a =? ?b)%N] =>
        rewrite (proj2 (N.eqb_neq a b) H)
    | H : ?a <> ?b |- context [(?b =? ?a)%N] =>
        rewrite (N.eqb_sym b a), (proj2 (N.eqb_neq a b) H)
    end.

Lemma escapeHtmlAttr_flat_map (s : str) :
  escapeHtmlAttr s = flat_map escapeChar s.
Proof.
  unfold escapeHtmlAttr.
  unfold replaceChar at 4. rewrite !replaceChar_flat_map.
  apply flat_map_ext. intros c. char_cases c.
  unfold escapeChar, replaceChar.
  repeat (progress (cbn [flat_map app]; eqb_false)). reflexivity.
Qed.

Lemma escapeOnly_all (c : char) :
  escapeOnly [AMP; QUOT; LT; GT] c = escapeChar c.
Proof.
  char_cases c. unfold escapeOnly, escapeChar. cbn [existsb].
  eqb_false. reflexivity.
Qed.

Lemma replaceText_flat_map (pat rep : str) (f g : char -> str) :
  (forall c rest, replaceText pat rep 0 (f c ++ rest)
                  = g c ++ replaceText pat rep 0 rest) ->
  forall s, replaceText pat rep 0 (flat_map f s) = flat_map g s.
Proof.
  intros H s. induction s as [|c s IH]; cbn [flat_map]; [reflexivity|].
  now rewrite H, IH.
Qed.

Lemma replaceText_other (pat rep : str) (c : char) (rest : str) :
  c <> AMP ->
  replaceText (AMP :: pat) rep 0 (c :: rest)
  = c :: replaceText (AMP :: pat) rep 0 rest.
Proof.
  intros H. cbn [replaceText]. rewrite starts_head_neq by congruence.
  reflexivity.
Qed.

Ltac decode_step c :=
  char_cases c;
  unfold escapeOnly, escapeChar; cbn [existsb]; eqb_false; cbn [orb app];
  now apply replaceText_other.

Lemma decode_quot (s : str) :
  replaceText (lit "&quot;") [QUOT] 0 (flat_map (escapeOnly [AMP; QUOT; LT; GT]) s)
  = flat_map (escapeOnly [AMP; LT; GT]) s.
Proof. apply replaceText_flat_map. intros c rest. decode_step c. Qed.

Lemma decode_lt (s : str) :
  replaceText (lit "&lt;") [LT] 0 (flat_map (escapeOnly [AMP; LT; GT]) s)
  = flat_map (escapeOnly [AMP; GT]) s.
Proof. apply replaceText_flat_map. intros c rest. decode_step c. Qed.

Lemma decode_gt (s : str) :
  replaceText (lit "&gt;") [GT] 0 (flat_map (escapeOnly [AMP; GT]) s)
  = flat_map (escapeOnly [AMP]) s.
Proof. apply replaceText_flat_map. intros c rest. decode_step c. Qed.

Lemma decode_amp (s : str) :
  replaceText (lit "&amp;") [AMP] 0 (flat_map (escapeOnly [AMP]) s)
  = flat_map (escapeOnly []) s.
Proof. apply replaceText_flat_map. intros c rest. decode_step c. Qed.

Lemma flat_map_singleton (s : str) : flat_map (escapeOnly []) s = s.
Proof.
  induction s as [|c s IH]; cbn [flat_map]; [reflexivity|].
  now rewrite IH.
Qed.

Lemma decode_escape (s : str) : decodeHtmlAttr (escapeHtmlAttr s) = s.
Proof.
  unfold decodeHtmlAttr. rewrite escapeHtmlAttr_flat_map.
  rewrite <- (flat_map_ext _ _ escapeOnly_all).
  rewrite decode_quot, decode_lt, decode_gt, decode_amp.
  apply flat_map_singleton.
Qed.

Lemma escape_injective (s1 s2 : str) :
  escapeHtmlAttr s1 = escapeHtmlAttr s2 -> s1 = s2.
Proof.
  intros H. rewrite <- (decode_escape s1), <- (decode_escape s2).
  now rewrite H.
Qed.

Lemma has_char_flat_map (d : char) (f : char -> str) (s : str) :
  (forall c, In c s -> has_char d (f c) = false) ->
  has_char d (flat_map f s) = false.
Proof.
  induction s as [|c s IH]; cbn [flat_map]; intros H; [reflexivity|].
  rewrite has_char_app, H, IH; auto using in_eq, in_cons.
Qed.

Lemma has_char_In (d : char) (s : str) :
  has_char d s = false -> forall c, In c s -> c <> d.
Proof.
  induction s as [|x s IH]; intros H c Hc; [contradiction|].
  apply has_char_false_cons in H as [Hx Hs].
  destruct Hc as [<-|Hc]; auto.
Qed.

Lemma escape_has_no_quot (s : str) : has_char QUOT (escapeHtmlAttr s) = false.
Proof.
  rewrite escapeHtmlAttr_flat_map. apply has_char_flat_map. intros c _.
  char_cases c. unfold escapeChar. eqb_false.
  rewrite has_char_cons. now eqb_false.
Qed.

Lemma escape_keeps_out_dollar (s : str) :
  has_char DOLLAR s = false -> has_char DOLLAR (escapeHtmlAttr s) = false.
Proof.
  intros H. rewrite escapeHtmlAttr_flat_map. apply has_char_flat_map.
  intros c Hc. apply (has_char_In _ _ H) in Hc.
  char_cases c. unfold escapeChar. eqb_false.
  rewrite has_char_cons. now eqb_false.
Qed.

Lemma takeUntil_found (d : char) (e rest : str) :
  has_char d e = false -> takeUntil d (e ++ d :: rest) = e.
Proof.
  induction e as [|c e IH]; cbn [app takeUntil]; intros H.
  - now rewrite N.eqb_refl.
  - apply has_char_false_cons in H as [Hc He]. eqb_false. now rewrite IH.
Qed.

Lemma dataLatex_blockMarker (e : str) :
  has_char QUOT e = false -> dataLatex (blockMarker e) = Some e.
Proof.
  intros H.
  change (dataLatex (blockMarker e))
    with (Some (takeUntil QUOT (e ++ QUOT :: lit "></div>"))).
  now rewrite takeUntil_found.
Qed.

Lemma dataLatex_inlineMarker (e : str) :
  has_char QUOT e = false -> dataLatex (inlineMarker e) = Some e.
Proof.
  intros H.
  change (dataLatex (inlineMarker e))
    with (Some (takeUntil QUOT (e ++ QUOT :: lit "></span>"))).
  now rewrite takeUntil_found.
Qed.

Lemma markerLatex_block (s : str) :
  markerLatex (blockMarker (escapeHtmlAttr s)) = Some s.
Proof.
  unfold markerLatex.
  rewrite dataLatex_blockMarker by apply escape_has_no_quot.
  cbn [option_map]. now rewrite decode_escape.
Qed.

Lemma markerLatex_inline (s : str) :
  markerLatex (inlineMarker (escapeHtmlAttr s)) = Some s.
Proof.
  unfold markerLatex.
  rewrite dataLatex_inlineMarker by apply escape_has_no_quot.
  cbn [option_map]. now rewrite decode_escape.
Qed.

(** C10. The four sequential replacements of [escapeHtmlAttr] amount to
    escaping each character on its own, the ampersand having been replaced
    first; decoding the four entities, the ampersand last, gives the text
    back, so the escaping is injective; and the [data-latex] attribute of
    the marker each callback emits decodes to the trimmed interior. *)
Theorem escape_is_reversible :
  (forall s, escapeHtmlAttr s = flat_map escapeChar s)
  /\ (forall s, decodeHtmlAttr (escapeHtmlAttr s) = s)
  /\ (forall s1 s2, escapeHtmlAttr s1 = escapeHtmlAttr s2 -> s1 = s2)
  /\ (forall matched latex,
        markerLatex (blockReplacer matched latex) = Some (trim latex))
  /\ (forall matched latex,
        looksLikePlainText (trim latex) = false ->
        markerLatex (inlineReplacer matched latex) = Some (trim latex)).
Proof.
  split; [exact escapeHtmlAttr_flat_map|].
  split; [exact decode_escape|].
  split; [exact escape_injective|].
  split.
  - intros matched latex. apply markerLatex_block.
  - intros matched latex H. unfold inlineReplacer. rewrite H.
    apply markerLatex_inline.
Qed.

Lemma escape_is_reversible_witness :
  markerLatex (inlineReplacer (lit "$ a<b & c $") (lit " a<b & c "))
  = Some (lit "a<b & c")
  /\ (escapeHtmlAttr (lit "&lt;") = escapeHtmlAttr (lit "&lt;") ->
      lit "&lt;" = lit "&lt;").
Proof.
  split.
  - exact (proj2 (proj2 (proj2 (proj2 escape_is_reversible)))
             (lit "$ a<b & c $") (lit " a<b & c ") eq_refl).
  - exact (proj1 (proj2 (proj2 escape_is_reversible))
             (lit "&lt;") (lit "&lt;")).
Defined.

(** ** Unmatched delimiters *)

Lemma replaceBlockMath_skip (p q : str) :
  quiet match_block p q ->
  replaceBlockMath (p ++ q) = p ++ replaceBlockMath q.
Proof. apply replaceWith_quiet. Qed.

Lemma replaceInlineMath_skip (p q : str) :
  quiet match_inline p q ->
  replaceInlineMath (p ++ q) = p ++ replaceInlineMath q.
Proof. apply replaceWith_quiet. Qed.

Lemma quiet_block_no_dollar (p q : str) :
  has_char DOLLAR p = false -> quiet match_block p q.
Proof.
  apply quiet_no_char. exact match_block_head.
Qed.

Lemma quiet_inline_no_dollar (p q : str) :
  has_char DOLLAR p = false -> quiet match_inline p q.
Proof.
  apply quiet_no_char. exact match_inline_head.
Qed.

Lemma starts_dollars_unclosed (line tail : str) :
  has_char DOLLAR line = false -> line_end tail ->
  starts DOLLARS (DOLLAR :: line ++ tail) = false.
Proof.
  intros Hl Ht. unfold DOLLARS. cbn [starts]. rewrite N.eqb_refl.
  destruct line as [|c line]; cbn [app].
  - destruct tail as [|c tail]; [reflexivity|]. cbn in Ht. now subst c.
  - apply has_char_false_cons in Hl as [Hc _]. now eqb_false.
Qed.

Lemma match_inline_unclosed (line tail : str) :
  has_char DOLLAR line = false -> line_end tail ->
  match_inline (DOLLAR :: line ++ tail) = None.
Proof.
  intros Hl Ht. destruct line as [|c line]; cbn [app].
  - destruct tail as [|c tail]; [reflexivity|]. cbn in Ht. subst c.
    reflexivity.
  - apply has_char_false_cons in Hl as [Hc Hl].
    cbn [match_inline]. rewrite inline_rest_line_end by assumption.
    now destruct (_ && _).
Qed.

Lemma line_end_replaceBlockMath (tail : str) :
  line_end tail -> line_end (replaceBlockMath tail).
Proof.
  destruct tail as [|c tail]; [trivial|]. cbn [line_end]. intros ->.
  reflexivity.
Qed.

Lemma block_pass_unmatched_double (pre line tail : str) :
  has_char DOLLAR pre = false -> has_char DOLLAR line = false ->
  line_end tail -> contains DOLLARS tail = false ->
  replaceBlockMath (pre ++ DOLLARS ++ line ++ tail)
  = pre ++ DOLLARS ++ line ++ tail.
Proof.
  intros Hp Hl Ht Hc.
  assert (Hlt : contains DOLLARS (line ++ tail) = false).
  { unfold DOLLARS. rewrite contains_skip_prefix by exact Hl. exact Hc. }
  rewrite replaceBlockMath_skip by now apply quiet_block_no_dollar.
  f_equal. unfold DOLLARS at 1.
  change ([DOLLAR; DOLLAR] ++ line ++ tail)
    with ([DOLLAR; DOLLAR] ++ (line ++ tail)).
  rewrite replaceBlockMath_skip.
  - f_equal. now apply replaceBlockMath_no_dollars.
  - cbn [quiet app]. repeat split.
    + unfold match_block. cbn [starts DOLLARS skipn]. rewrite !N.eqb_refl.
      cbn [andb]. unfold contains in Hlt.
      now destruct (indexOf DOLLARS (line ++ tail)).
    + apply match_block_not_start. now apply starts_dollars_unclosed.
Qed.

Lemma inline_pass_unmatched_double (pre line tail : str) :
  has_char DOLLAR pre = false -> has_char DOLLAR line = false ->
  line_end tail ->
  replaceInlineMath (pre ++ DOLLARS ++ line ++ tail)
  = pre ++ DOLLARS ++ line ++ replaceInlineMath tail.
Proof.
  intros Hp Hl Ht.
  rewrite replaceInlineMath_skip by now apply quiet_inline_no_dollar.
  f_equal.
  change (DOLLARS ++ line ++ tail) with ([DOLLAR] ++ [DOLLAR] ++ line ++ tail).
  rewrite replaceInlineMath_skip by (cbn [quiet app]; split; trivial).
  rewrite replaceInlineMath_skip
    by (cbn [quiet app]; split; trivial; now apply match_inline_unclosed).
  rewrite replaceInlineMath_skip by now apply quiet_inline_no_dollar.
  reflexivity.
Qed.

Lemma block_pass_unmatched_single (pre line tail : str) :
  has_char DOLLAR pre = false -> has_char DOLLAR line = false ->
  line_end tail ->
  replaceBlockMath (pre ++ [DOLLAR] ++ line ++ tail)
  = pre ++ [DOLLAR] ++ line ++ replaceBlockMath tail.
Proof.
  intros Hp Hl Ht.
  rewrite replaceBlockMath_skip by now apply quiet_block_no_dollar.
  f_equal.
  rewrite replaceBlockMath_skip.
  - rewrite replaceBlockMath_skip by now apply quiet_block_no_dollar.
    reflexivity.
  - cbn [quiet app]. split; trivial.
    apply match_block_not_start. now apply starts_dollars_unclosed.
Qed.

Lemma inline_pass_unmatched_single (pre line tail : str) :
  has_char DOLLAR pre = false -> has_char DOLLAR line = false ->
  line_end tail ->
  replaceInlineMath (pre ++ [DOLLAR] ++ line ++ tail)
  = pre ++ [DOLLAR] ++ line ++ replaceInlineMath tail.
Proof.
  intros Hp Hl Ht.
  rewrite replaceInlineMath_skip by now apply quiet_inline_no_dollar.
  f_equal.
  rewrite replaceInlineMath_skip
    by (cbn [quiet app]; split; trivial; now apply match_inline_unclosed).
  rewrite replaceInlineMath_skip by now apply quiet_inline_no_dollar.
  reflexivity.
Qed.

(** ** The size of the result *)

Lemma indexOf_bound (pat s : str) (j : nat) :
  indexOf pat s = Some j -> j + length pat <= length s.
Proof.
  revert j. induction s as [|c s IH]; intros j; cbn [indexOf].
  - destruct pat; cbn [starts]; [|discriminate]. intros [= <-]. cbn. lia.
  - destruct (starts pat (c :: s)) eqn:E.
    + intros [= <-]. clear IH. revert E. generalize (c :: s). clear.
      induction pat as [|p pat IH]; intros s E; cbn [length]; [lia|].
      destruct s as [|x s]; cbn [starts] in E; [discriminate|].
      apply andb_true_iff in E as [_ E]. specialize (IH s E). cbn [length].
      lia.
    + destruct (indexOf pat s) as [i|]; cbn [option_map]; [|discriminate].
      intros [= <-]. specialize (IH i eq_refl). cbn [length]. lia.
Qed.

Lemma dropWhile_length (p : char -> bool) (s : str) :
  length (dropWhile p s) <= length s.
Proof.
  induction s as [|c s IH]; cbn [dropWhile length]; [lia|].
  destruct (p c); cbn [length]; lia.
Qed.

Lemma trim_length (s : str) : length (trim s) <= length s.
Proof.
  unfold trim. rewrite length_rev.
  etransitivity; [apply dropWhile_length|]. rewrite length_rev.
  apply dropWhile_length.
Qed.

Lemma escapeChar_length (c : char) : length (escapeChar c) <= 6.
Proof.
  unfold escapeChar.
  repeat match goal with |- context [if ?b then _ else _] => destruct b end;
    cbn; lia.
Qed.

Lemma escapeHtmlAttr_length (s : str) :
  length (escapeHtmlAttr s) <= 6 * length s.
Proof.
  rewrite escapeHtmlAttr_flat_map.
  induction s as [|c s IH]; cbn [flat_map length]; [lia|].
  rewrite length_app. pose proof (escapeChar_length c). lia.
Qed.

Lemma blockMarker_length (e : str) : length (blockMarker e) = 48 + length e.
Proof.
  unfold blockMarker. rewrite !length_app. cbn [length lit]. 
  change (length (lit "<div data-type=")) with 15.
  change (length (lit "block-math")) with 10.
  change (length (lit " data-latex=")) with 12.
  change (length (lit "></div>")) with 7. lia.
Qed.

Lemma inlineMarker_length (e : str) : length (inlineMarker e) = 51 + length e.
Proof.
  unfold inlineMarker. rewrite !length_app. cbn [length lit].
  change (length (lit "<span data-type=")) with 16.
  change (length (lit "inline-math")) with 11.
  change (length (lit " data-latex=")) with 12.
  change (length (lit "></span>")) with 8. lia.
Qed.

Lemma inline_rest_length (s body : str) :
  inline_rest s = Some body -> S (length body) <= length s.
Proof.
  revert body. induction s as [|c s IH]; intros body; cbn [inline_rest];
    [discriminate|].
  destruct (c =? DOLLAR)%N; [intros [= <-]; cbn; lia|].
  destruct (c =? NL)%N; [discriminate|].
  destruct (inline_rest s) as [b|]; cbn [option_map]; [|discriminate].
  intros [= <-]. specialize (IH b eq_refl). cbn [length]. lia.
Qed.

(** A walk whose callback gives at most [K] code units for each code unit
    of a match gives at most [K] code units for each code unit of the
    text. *)
Lemma replaceWith_length (m : str -> option (nat * str))
    (f : str -> str -> str) (K : nat) :
  1 <= K ->
  (forall s len cap, m s = Some (len, cap) ->
     1 <= len <= length s /\ length (f (firstn len s) cap) <= K * len) ->
  forall s skip, length (replaceWith m f skip s) <= K * (length s - skip).
Proof.
  intros HK Hm. induction s as [|c t IH]; intros skip; cbn [replaceWith].
  - cbn. lia.
  - destruct skip as [|k].
    + destruct (m (c :: t)) as [[len cap]|] eqn:E.
      * destruct (Hm _ _ _ E) as [Hl Hf]. rewrite length_app.
        specialize (IH (pred len)). cbn [length] in *. nia.
      * specialize (IH 0). cbn [length]. nia.
    + specialize (IH k). cbn [length]. 
      replace (S (length t) - S k) with (length t - k) by lia. exact IH.
Qed.

Lemma replaceBlockMath_length (s : str) :
  length (replaceBlockMath s) <= 12 * length s.
Proof.
  unfold replaceBlockMath.
  pose proof (replaceWith_length match_block blockReplacer 12) as H.
  rewrite <- (Nat.sub_0_r (length s)). apply H; [lia|]. clear. 
  intros s len cap. unfold match_block.
  destruct (starts DOLLARS s) eqn:E; [|discriminate].
  destruct (indexOf DOLLARS (skipn 2 s)) as [j|] eqn:Ej; [|discriminate].
  intros [= <- <-]. apply indexOf_bound in Ej.
  assert (Hs : 2 <= length s).
  { destruct s as [|a [|b s]]; cbn [starts DOLLARS] in E;
      rewrite ?andb_false_r in E; try discriminate E. cbn [length]. lia. }
  rewrite length_skipn in Ej. cbn [length DOLLARS] in Ej.
  split; [lia|]. unfold blockReplacer. rewrite blockMarker_length.
  pose proof (escapeHtmlAttr_length (trim (firstn j (skipn 2 s)))).
  pose proof (trim_length (firstn j (skipn 2 s))) as Ht.
  pose proof (firstn_le_length j (skipn 2 s)) as Hj.
  change (match s with | _ :: _ :: l0 => l0 | _ => [] end) with (skipn 2 s).
  lia.
Qed.

Lemma replaceInlineMath_length (s : str) :
  length (replaceInlineMath s) <= 19 * length s.
Proof.
  unfold replaceInlineMath.
  pose proof (replaceWith_length match_inline inlineReplacer 19) as H.
  rewrite <- (Nat.sub_0_r (length s)). apply H; [lia|]. clear.
  intros s len cap. unfold match_inline.
  destruct s as [|d [|c t]]; try discriminate.
  destruct (_ && _ && _); [|discriminate].
  destruct (inline_rest t) as [body|] eqn:E; [|discriminate].
  intros [= <- <-]. apply inline_rest_length in E. cbn [length].
  split; [lia|]. unfold inlineReplacer.
  destruct (looksLikePlainText _).
  - rewrite length_firstn. cbn [length]. lia.
  - rewrite inlineMarker_length.
    pose proof (escapeHtmlAttr_length (trim (c :: body))).
    pose proof (trim_length (c :: body)). cbn [length] in *. lia.
Qed.

Lemma preprocess_length_no_code (s : str) :
  has_char BACKTICK s = false -> contains TILDES s = false ->
  length (preprocessMathInMarkdown s) <= 228 * length s.
Proof.
  intros Hb Ht. rewrite preprocess_no_code by assumption.
  pose proof (replaceInlineMath_length (replaceBlockMath s)).
  pose proof (replaceBlockMath_length s). lia.
Qed.

(** C6, as amended.  On a text without code regions the preprocessor
    returns a text at most 228 times as long as its input.  The first
    dollar delimiter of a text is left alone when nothing closes it: a pair
    of dollar signs with no dollar sign after it on its line and no pair
    after the line, and a dollar sign with no dollar sign before the end of
    its line, stay in the text together with the text that follows them on
    the line; what comes after the line is processed as a text of its own.
    The statements about the whole pipeline are for texts without code
    regions; the two about the math passes hold for every text. *)
Theorem unmatched_delimiters_stay_literal (pre line tail : str) :
  has_char DOLLAR pre = false ->
  has_char DOLLAR line = false ->
  line_end tail ->
  (forall s, has_char BACKTICK s = false -> contains TILDES s = false ->
     length (preprocessMathInMarkdown s) <= 228 * length s)
  /\ (contains DOLLARS tail = false ->
      replaceInlineMath (replaceBlockMath (pre ++ DOLLARS ++ line ++ tail))
      = pre ++ DOLLARS ++ line ++ replaceInlineMath (replaceBlockMath tail))
  /\ replaceInlineMath (replaceBlockMath (pre ++ [DOLLAR] ++ line ++ tail))
     = pre ++ [DOLLAR] ++ line ++ replaceInlineMath (replaceBlockMath tail)
  /\ (contains DOLLARS tail = false ->
      has_char BACKTICK (pre ++ DOLLARS ++ line ++ tail) = false ->
      contains TILDES (pre ++ DOLLARS ++ line ++ tail) = false ->
      preprocessMathInMarkdown (pre ++ DOLLARS ++ line ++ tail)
      = pre ++ DOLLARS ++ line ++ preprocessMathInMarkdown tail)
  /\ (has_char BACKTICK (pre ++ [DOLLAR] ++ line ++ tail) = false ->
      contains TILDES (pre ++ [DOLLAR] ++ line ++ tail) = false ->
      preprocessMathInMarkdown (pre ++ [DOLLAR] ++ line ++ tail)
      = pre ++ [DOLLAR] ++ line ++ preprocessMathInMarkdown tail).
Proof.
  intros Hp Hl Ht.
  assert (H2 : contains DOLLARS tail = false ->
      replaceInlineMath (replaceBlockMath (pre ++ DOLLARS ++ line ++ tail))
      = pre ++ DOLLARS ++ line ++ replaceInlineMath (replaceBlockMath tail)).
  { intros Hc. rewrite block_pass_unmatched_double by assumption.
    rewrite (replaceBlockMath_no_dollars tail Hc).
    now apply inline_pass_unmatched_double. }
  assert (H1 :
      replaceInlineMath (replaceBlockMath (pre ++ [DOLLAR] ++ line ++ tail))
      = pre ++ [DOLLAR] ++ line ++ replaceInlineMath (replaceBlockMath tail)).
  { rewrite block_pass_unmatched_single by assumption.
    apply inline_pass_unmatched_single; auto using line_end_replaceBlockMath. }
  split; [exact preprocess_length_no_code|].
  split; [exact H2|]. split; [exact H1|]. split.
  - intros Hc Hb Htl. rewrite preprocess_no_code by assumption.
    rewrite H2 by exact Hc. rewrite !app_assoc in Hb, Htl.
    apply has_char_false_app in Hb as [_ Hb].
    apply contains_app_r in Htl.
    now rewrite (preprocess_no_code tail Hb Htl).
  - intros Hb Htl. rewrite preprocess_no_code by assumption.
    rewrite H1. rewrite !app_assoc in Hb, Htl.
    apply has_char_false_app in Hb as [_ Hb].
    apply contains_app_r in Htl.
    now rewrite (preprocess_no_code tail Hb Htl).
Qed.

Lemma unmatched_delimiters_stay_literal_witness :
  preprocessMathInMarkdown (lit "sum $$ a+b" ++ [NL] ++ lit "then $x$ here")
  = lit "sum $$ a+b" ++ [NL] ++ lit "then " ++ inlineMarker (lit "x")
    ++ lit " here"
  /\ preprocessMathInMarkdown (lit "costs $ 3")
     = lit "costs $ 3".
Proof.
  split.
  - etransitivity;
      [exact (proj1 (proj2 (proj2 (proj2
         (unmatched_delimiters_stay_literal (lit "sum ") (lit " a+b")
            ([NL] ++ lit "then $x$ here") eq_refl eq_refl eq_refl))))
         eq_refl eq_refl eq_refl)|reflexivity].
  - etransitivity;
      [exact (proj2 (proj2 (proj2 (proj2
         (unmatched_delimiters_stay_literal (lit "costs ") (lit " 3")
            [] eq_refl eq_refl I))))
         eq_refl eq_refl)|reflexivity].
Defined.

(** C6 as stated fails.  A pair of dollar signs with no pair after it
    loses its second dollar sign to an inline match when a dollar sign
    follows on the line, and its first one when inline math ends right
    before it.  A dollar sign with no other one on its line is paired
    with one on the next line when a code span holds the line break.  And
    with code spans the size of the result is not bounded by the size of
    the input: each restoring step copies the rest of the text into the
    literals restored before it, so that four spans of four code units give
    more than six thousand, where a text without code regions gives at most
    228 for each code unit. *)
Lemma unmatched_delimiters_counterexample :
  contains DOLLARS (lit " a $ b") = false
  /\ preprocessMathInMarkdown (lit "$$ a $ b")
     = lit "$" ++ inlineMarker (lit "a") ++ lit " b"
  /\ contains DOLLARS (lit " b") = false
  /\ preprocessMathInMarkdown (lit "$a$$ b")
     = inlineMarker (lit "a") ++ lit "$ b"
  /\ has_char DOLLAR (lit "x `b") = false
  /\ preprocessMathInMarkdown (lit "$x `b" ++ [NL] ++ lit "c` y$")
     = inlineMarker (lit "x `b" ++ [NL] ++ lit "c` y")
  /\ map (fun k => N.of_nat (length
                     (preprocessMathInMarkdown (concat (repeat (lit "`$'`") k)))))
       [1; 2; 3; 4]
     = [2; 27; 270; 6028]%N
  /\ 228 * length (concat (repeat (lit "`$'`") 4))
     < length (preprocessMathInMarkdown (concat (repeat (lit "`$'`") 4))).
Proof.
  repeat split; try (vm_compute; reflexivity).
  apply Nat.ltb_lt. vm_compute. reflexivity.
Qed.

(** ** The round trip of a math node through the preprocessor *)

Lemma trim_cons_space (c : char) (s : str) :
  is_space c = true -> trim (c :: s) = trim s.
Proof. intros H. unfold trim. cbn [dropWhile]. now rewrite H. Qed.

Lemma dropWhile_snoc_space (c : char) (s : str) :
  is_space c = true ->
  dropWhile is_space (s ++ [c])
  = match dropWhile is_space s with
    | [] => []
    | x :: l => (x :: l) ++ [c]
    end.
Proof.
  intros H. induction s as [|x s IH]; cbn [app dropWhile].
  - now rewrite H.
  - destruct (is_space x); [exact IH|reflexivity].
Qed.

Lemma trim_snoc_space (c : char) (s : str) :
  is_space c = true -> trim (s ++ [c]) = trim s.
Proof.
  intros H. unfold trim. rewrite dropWhile_snoc_space by exact H.
  destruct (dropWhile is_space s) as [|x l]; [reflexivity|].
  rewrite rev_app_distr. cbn [rev app dropWhile]. now rewrite H.
Qed.

Lemma trim_no_outer_space (s : str) : no_outer_space s -> trim s = s.
Proof.
  intros [H1 H2]. unfold trim. rewrite H1, H2. apply rev_involutive.
Qed.

Lemma has_char_dropWhile (d : char) (p : char -> bool) (s : str) :
  has_char d s = false -> has_char d (dropWhile p s) = false.
Proof.
  induction s as [|c s IH]; cbn [dropWhile]; intros H; [reflexivity|].
  destruct (p c); [|exact H].
  apply has_char_false_cons in H as [_ H]. now apply IH.
Qed.

Lemma has_char_rev (d : char) (s : str) : has_char d (rev s) = has_char d s.
Proof.
  induction s as [|c s IH]; [reflexivity|].
  cbn [rev]. rewrite has_char_app, IH, has_char_cons.
  cbn [has_char existsb]. rewrite orb_false_r. apply orb_comm.
Qed.

Lemma has_char_trim (d : char) (s : str) :
  has_char d s = false -> has_char d (trim s) = false.
Proof.
  intros H. unfold trim. rewrite has_char_rev.
  apply has_char_dropWhile. rewrite has_char_rev.
  now apply has_char_dropWhile.
Qed.

Lemma indexOf_skip_prefix (p : char) (pat a b : str) :
  has_char p a = false ->
  indexOf (p :: pat) (a ++ b)
  = option_map (Nat.add (length a)) (indexOf (p :: pat) b).
Proof.
  induction a as [|c a IH]; cbn [app length]; intros H.
  - now destruct (indexOf (p :: pat) b).
  - apply has_char_false_cons in H as [Hc Ha].
    cbn [indexOf]. rewrite starts_head_neq by congruence.
    rewrite IH by exact Ha. now destruct (indexOf (p :: pat) b).
Qed.

Lemma match_block_found (body post : str) :
  has_char DOLLAR body = false ->
  match_block ((DOLLARS ++ body ++ DOLLARS) ++ post)
  = Some (length (DOLLARS ++ body ++ DOLLARS), body).
Proof.
  intros H. unfold match_block.
  rewrite <- !app_assoc. rewrite starts_app.
  change (skipn 2 (DOLLARS ++ body ++ DOLLARS ++ post))
    with (body ++ DOLLARS ++ post).
  unfold DOLLARS at 1. rewrite indexOf_skip_prefix by exact H.
  assert (H0 : indexOf [DOLLAR; DOLLAR] (DOLLARS ++ post) = Some 0)
    by reflexivity.
  rewrite H0. cbn [option_map]. rewrite Nat.add_0_r.
  rewrite firstn_app, firstn_all, Nat.sub_diag, firstn_O, app_nil_r.
  f_equal. f_equal. unfold DOLLARS. rewrite !length_app.
  cbn [length]. lia.
Qed.

Lemma replaceBlockMath_one_block (body : str) :
  has_char DOLLAR body = false ->
  replaceBlockMath (DOLLARS ++ body ++ DOLLARS)
  = blockMarker (escapeHtmlAttr (trim body)).
Proof.
  intros H. unfold replaceBlockMath.
  rewrite <- (app_nil_r (DOLLARS ++ body ++ DOLLARS)).
  etransitivity;
    [exact (@replaceWith_match match_block blockReplacer DOLLAR
              (DOLLAR :: body ++ DOLLARS) [] body
              (match_block_found body [] H))|].
  apply app_nil_r.
Qed.

Lemma blockMarker_no_dollar (e : str) :
  has_char DOLLAR e = false -> has_char DOLLAR (blockMarker e) = false.
Proof.
  intros H. unfold blockMarker. rewrite !has_char_app, H. reflexivity.
Qed.

Lemma contains_tildes_wrapped (a l b : str) :
  has_char TILDE a = false -> has_char TILDE b = false ->
  contains TILDES (a ++ l ++ b) = contains TILDES l.
Proof.
  intros Ha Hb. unfold TILDES. rewrite contains_skip_prefix by exact Ha.
  now apply (contains_run_app_r TILDE 2).
Qed.

Lemma not_blank_not_nil (s : str) : forallb is_space s = false -> s <> [].
Proof. intros H ->. discriminate. Qed.

(** C1 (amended). Let [latex] hold no dollar sign, no backtick and no run
    of three tildes, and not be blank.  The text serialized for a block
    math node is rewritten to exactly one block marker, whose [data-latex]
    attribute decodes to the trimmed latex.  The text serialized for an
    inline math node is rewritten to exactly one inline marker with the
    same property whenever the latex also holds no newline and the
    classifier does not take its trimmed form for plain text.  The trimmed
    latex is the latex itself when it has no white space at either end. *)
Theorem math_round_trip_when_classified_as_math (latex : str) :
  has_char DOLLAR latex = false ->
  has_char BACKTICK latex = false ->
  contains TILDES latex = false ->
  forallb is_space latex = false ->
  (has_char NL latex = false ->
   looksLikePlainText (trim latex) = false ->
   preprocessMathInMarkdown (serializeInlineMath latex)
   = inlineMarker (escapeHtmlAttr (trim latex))
   /\ markerLatex (preprocessMathInMarkdown (serializeInlineMath latex))
      = Some (trim latex))
  /\ preprocessMathInMarkdown (serializeBlockMath latex)
     = blockMarker (escapeHtmlAttr (trim latex))
  /\ markerLatex (preprocessMathInMarkdown (serializeBlockMath latex))
     = Some (trim latex)
  /\ (no_outer_space latex -> trim latex = latex).
Proof.
  intros Hd Hb Ht Hs.
  assert (Hblock : preprocessMathInMarkdown (serializeBlockMath latex)
                   = blockMarker (escapeHtmlAttr (trim latex))).
  { unfold serializeBlockMath. rewrite Hs.
    rewrite preprocess_no_code.
    - assert (E : DOLLARS ++ [NL] ++ latex ++ [NL] ++ DOLLARS
                  = DOLLARS ++ (NL :: latex ++ [NL]) ++ DOLLARS)
        by (cbn [app]; now rewrite <- app_assoc).
      rewrite E. rewrite replaceBlockMath_one_block.
      + rewrite trim_cons_space, trim_snoc_space by reflexivity.
        apply replaceInlineMath_plain, blockMarker_no_dollar.
        now apply escape_keeps_out_dollar, has_char_trim.
      + rewrite has_char_cons, has_char_app, Hd. reflexivity.
    - rewrite !has_char_app, Hb. reflexivity.
    - change (DOLLARS ++ [NL] ++ latex ++ [NL] ++ DOLLARS)
        with ((DOLLARS ++ [NL]) ++ latex ++ ([NL] ++ DOLLARS)).
      now rewrite contains_tildes_wrapped. }
  split; [|split; [exact Hblock|split]].
  - intros Hn Hp.
    assert (Hinline : preprocessMathInMarkdown (serializeInlineMath latex)
                      = inlineMarker (escapeHtmlAttr (trim latex))).
    { unfold serializeInlineMath. rewrite Hs.
      pose proof (not_blank_not_nil latex Hs) as Hne.
      rewrite preprocess_no_code.
      - rewrite replaceBlockMath_no_dollars
          by now apply contains_dollars_candidate.
        destruct (inline_candidate_classified [] latex [] Hne Hd Hn eq_refl)
          as (_ & _ & _ & H).
        cbv zeta in H. fold (looksLikePlainText (trim latex)) in H.
        rewrite Hp in H. cbn [app] in H. rewrite !app_nil_r in H.
        exact H.
      - rewrite !has_char_app, Hb. reflexivity.
      - now rewrite contains_tildes_wrapped. }
    split; [exact Hinline|]. rewrite Hinline. apply markerLatex_inline.
  - rewrite Hblock. apply markerLatex_block.
  - apply trim_no_outer_space.
Qed.

Lemma math_round_trip_when_classified_as_math_witness :
  markerLatex (preprocessMathInMarkdown (serializeInlineMath (lit "a < b")))
  = Some (lit "a < b")
  /\ markerLatex (preprocessMathInMarkdown (serializeBlockMath (lit "5")))
     = Some (lit "5").
Proof.
  split.
  - exact (proj2 (proj1
      (math_round_trip_when_classified_as_math (lit "a < b")
         eq_refl eq_refl eq_refl eq_refl) eq_refl eq_refl)).
  - exact (proj1 (proj2 (proj2
      (math_round_trip_when_classified_as_math (lit "5")
         eq_refl eq_refl eq_refl eq_refl)))).
Defined.

(** C1 as stated fails.  The latex [5] has no dollar sign and no newline,
    yet the text serialized for it as inline math is left as plain text; a
    latex with a leading space comes back without it; and a code span in
    the latex is put back into the marker unescaped, so an entity written
    in it is decoded on reading. *)
Lemma math_round_trip_counterexample :
  has_char DOLLAR (lit "5") = false
  /\ has_char NL (lit "5") = false
  /\ serializeInlineMath (lit "5") = lit "$5$"
  /\ preprocessMathInMarkdown (serializeInlineMath (lit "5")) = lit "$5$"
  /\ markerLatex (preprocessMathInMarkdown (serializeInlineMath (lit "5")))
     = None
  /\ markerLatex (preprocessMathInMarkdown (serializeInlineMath (lit " x")))
     = Some (lit "x")
  /\ markerLatex
       (preprocessMathInMarkdown (serializeInlineMath (lit "`&lt;`")))
     = Some (lit "`<`")
  /\ markerLatex
       (preprocessMathInMarkdown (serializeBlockMath (lit "~~~&lt;~~~")))
     = Some (lit "~~~<~~~").
Proof.
  repeat split; reflexivity.
Qed.

(** ** The hand-written matchers against the patterns

    On every text over the characters that matter to a pattern, up to the
    stated length, the matcher of the embedding gives what the backtracking
    matcher gives on the pattern of the source. *)

Lemma match_tilde_agrees :
  forallb (fun s => same_length (match_here RE_TILDE [] s) (match_tilde s))
    (words_upto (lit "~a") 11) = true.
Proof. vm_compute. reflexivity. Qed.

Lemma match_backtick_agrees :
  forallb
    (fun s => same_length (match_here RE_BACKTICK [] s) (match_backtick s))
    (words_upto (lit "`a") 11) = true.
Proof. vm_compute. reflexivity. Qed.

Lemma match_block_agrees :
  forallb (fun s => same_match (match_here RE_BLOCK [] s) (match_block s))
    (words_upto (lit "$a" ++ [NL]) 7) = true.
Proof. vm_compute. reflexivity. Qed.

Lemma match_inline_agrees :
  forallb (fun s => same_match (match_here RE_INLINE [] s) (match_inline s))
    (words_upto (lit "$a" ++ [NL]) 7) = true.
Proof. vm_compute. reflexivity. Qed.

Lemma startsWithNumber_agrees :
  forallb
    (fun s => Bool.eqb (test RE_STARTS_WITH_NUMBER s) (startsWithNumber s))
    (words_upto (lit "1.,a ") 5) = true.
Proof. vm_compute. reflexivity. Qed.

Lemma isPureNumber_agrees :
  forallb (fun s => Bool.eqb (test RE_PURE_NUMBER s) (isPureNumber s))
    (words_upto (lit "1,. a") 6) = true
  /\ forallb (fun s => Bool.eqb (test RE_PURE_NUMBER s) (isPureNumber s))
       (words_upto (lit "1,.") 9) = true.
Proof. split; vm_compute; reflexivity. Qed.

Lemma hasEnglishWordsAfterNumber_agrees :
  forallb
    (fun s => Bool.eqb (test RE_WORDS_AFTER_NUMBER s)
                (hasEnglishWordsAfterNumber s))
    (words_upto (lit "1,. a") 6) = true.
Proof. vm_compute. reflexivity. Qed.

Lemma hasRangeOrCurrencyWords_agrees :
  forallb
    (fun s => Bool.eqb (test RE_RANGE_WORDS s) (hasRangeOrCurrencyWords s))
    (words_upto (lit "aNd 1_") 5) = true
  /\ forallb
       (fun s => Bool.eqb (test RE_RANGE_WORDS s) (hasRangeOrCurrencyWords s))
       (words_upto (lit "oRt ") 6) = true
  /\ forallb
       (fun s => Bool.eqb (test RE_RANGE_WORDS s) (hasRangeOrCurrencyWords s))
       (words_upto (lit "PeraCh+") 4) = true.
Proof. repeat split; vm_compute; reflexivity. Qed.

Lemma hasNonLatexToken_agrees :
  forallb (fun s => Bool.eqb (test RE_NON_LATEX s) (hasNonLatexToken s))
    (words_upto (lit "a1 $#+" ++ [92%N; 233%N]) 3) = true.
Proof. vm_compute. reflexivity. Qed.

(** The first test of the classifier only looks at the first code unit. *)
Lemma startsWithNumber_first_digit (s : str) :
  startsWithNumber s = match s with c :: _ => is_digit c | [] => false end.
Proof.
  unfold startsWithNumber, number_token, many1.
  destruct s as [|c t]; [reflexivity|].
  destruct (is_digit c); [|reflexivity].
  destruct (dropWhile is_digit t) as [|sep r]; [reflexivity|].
  destruct (is_dot sep || is_comma sep); [|reflexivity].
  destruct r as [|c2 r]; [reflexivity|]. now destruct (is_digit c2).
Qed.

Lemma hasNonLatexToken_exists (s : str) :
  hasNonLatexToken s = true <-> exists c, In c s /\ is_latex_char c = false.
Proof.
  unfold hasNonLatexToken. rewrite existsb_exists.
  split; intros [c [H1 H2]]; exists c; split; trivial.
  - now apply negb_true_iff.
  - now apply negb_true_iff.
Qed.

(** When every dollar sign of a text lies in a protected region, the two
    math passes change nothing: the output is the protected text with its
    sentinels put back by the restore loop. *)
Lemma protected_text_gets_no_marker (s : str) :
  has_char DOLLAR (fst (protectCode s)) = false ->
  preprocessMathInMarkdown s
  = restoreFrom 0 (snd (protectCode s)) (fst (protectCode s)).
Proof.
  intros H. unfold preprocessMathInMarkdown.
  destruct (protectCode s) as [r ps]. cbn [fst snd] in *.
  rewrite replaceBlockMath_plain by exact H.
  now rewrite replaceInlineMath_plain.
Qed.

(** * Further properties of the preprocessor *)

(** ** escapeHtmlAttr *)

Lemma escapeChar_special_longer (c : char) :
  is_special c = true -> 1 < length (escapeChar c).
Proof.
  destruct (N.eqb_spec c AMP) as [->|?]; [cbn; lia|].
  destruct (N.eqb_spec c QUOT) as [->|?]; [cbn; lia|].
  destruct (N.eqb_spec c LT) as [->|?]; [cbn; lia|].
  destruct (N.eqb_spec c GT) as [->|?]; [cbn; lia|].
  unfold is_special. eqb_false. discriminate.
Qed.

Lemma escapeChar_ordinary (c : char) :
  is_special c = false -> escapeChar c = [c].
Proof.
  unfold is_special, escapeChar. intros H.
  repeat (apply orb_false_elim in H as [H ?]).
  now repeat match goal with E : (_ =? _)%N = false |- _ => rewrite E; clear E end.
Qed.

Lemma escape_length (s : str) :
  length s <= length (escapeHtmlAttr s)
  /\ (existsb is_special s = true -> length s < length (escapeHtmlAttr s)).
Proof.
  rewrite escapeHtmlAttr_flat_map.
  induction s as [|c s [IH1 IH2]]; cbn [flat_map existsb length].
  - split; [lia|discriminate].
  - rewrite length_app. destruct (is_special c) eqn:E.
    + pose proof (escapeChar_special_longer c E). split; intros; lia.
    + rewrite (escapeChar_ordinary c E). cbn [length orb].
      split; [lia|]. intros H. specialize (IH2 H). lia.
Qed.

(** The escaped text can stand between double quotes in markup: it holds
    no double quote and no angle bracket; escaping goes through
    concatenation, so a text can be escaped piece by piece. *)
Theorem escapeHtmlAttr_attribute_safe :
  (forall s, has_char QUOT (escapeHtmlAttr s) = false
             /\ has_char LT (escapeHtmlAttr s) = false
             /\ has_char GT (escapeHtmlAttr s) = false)
  /\ (forall a b,
        escapeHtmlAttr (a ++ b) = escapeHtmlAttr a ++ escapeHtmlAttr b).
Proof.
  split.
  - intros s. rewrite escapeHtmlAttr_flat_map.
    repeat split; apply has_char_flat_map; intros c _; char_cases c;
      unfold escapeChar; eqb_false; rewrite has_char_cons; now eqb_false.
  - intros a b. rewrite !escapeHtmlAttr_flat_map. apply flat_map_app.
Qed.

(** Escaping changes a text exactly when the text holds one of the four
    special characters, and never makes it shorter. *)
Theorem escapeHtmlAttr_identity_iff (s : str) :
  (escapeHtmlAttr s = s <-> existsb is_special s = false)
  /\ length s <= length (escapeHtmlAttr s).
Proof.
  split; [|apply escape_length]. split.
  - intros H. destruct (existsb is_special s) eqn:E; [|reflexivity].
    pose proof (proj2 (escape_length s) E) as L. rewrite H in L. lia.
  - intros H. rewrite escapeHtmlAttr_flat_map.
    induction s as [|c s IH]; [reflexivity|].
    cbn [existsb] in H. apply orb_false_elim in H as [H1 H2].
    cbn [flat_map]. rewrite (escapeChar_ordinary c H1), IH by exact H2.
    reflexivity.
Qed.

Lemma escapeHtmlAttr_identity_iff_witness :
  escapeHtmlAttr (lit "\frac{a}{b}") = lit "\frac{a}{b}".
Proof.
  apply (proj2 (proj1 (escapeHtmlAttr_identity_iff (lit "\frac{a}{b}")))).
  reflexivity.
Defined.

(** ** Math in its context *)

Lemma replaceInlineMath_candidate (pre interior post : str) :
  interior <> [] ->
  has_char DOLLAR interior = false -> has_char NL interior = false ->
  has_char DOLLAR pre = false ->
  replaceInlineMath (pre ++ ([DOLLAR] ++ interior ++ [DOLLAR]) ++ post)
  = pre ++ inlineReplacer ([DOLLAR] ++ interior ++ [DOLLAR]) interior
    ++ replaceInlineMath post.
Proof.
  intros Hne Hd Hn Hp.
  rewrite replaceInlineMath_skip by now apply quiet_inline_no_dollar.
  f_equal.
  exact (@replaceWith_match match_inline inlineReplacer DOLLAR
           (interior ++ [DOLLAR]) post interior
           (match_inline_candidate interior post Hne Hd Hn)).
Qed.

Lemma replaceBlockMath_block (pre body post : str) :
  has_char DOLLAR pre = false -> has_char DOLLAR body = false ->
  replaceBlockMath (pre ++ (DOLLARS ++ body ++ DOLLARS) ++ post)
  = pre ++ blockMarker (escapeHtmlAttr (trim body)) ++ replaceBlockMath post.
Proof.
  intros Hp Hb.
  rewrite replaceBlockMath_skip by now apply quiet_block_no_dollar.
  f_equal.
  exact (@replaceWith_match match_block blockReplacer DOLLAR
           (DOLLAR :: body ++ DOLLARS) post body
           (match_block_found body post Hb)).
Qed.

Lemma code_free_app (a b : str) :
  has_char BACKTICK (a ++ b) = false -> contains TILDES (a ++ b) = false ->
  has_char BACKTICK b = false /\ contains TILDES b = false.
Proof.
  intros H1 H2. apply has_char_false_app in H1 as [_ H1].
  apply contains_app_r in H2. now split.
Qed.

(** A block of math in a text without code regions: whatever the interior
    looks like (a number, several lines), the pair of double dollar signs
    and the interior become one block marker with the trimmed interior, and
    the text after the block is processed on its own. *)
Theorem block_math_in_context (pre body post : str) :
  has_char DOLLAR pre = false ->
  has_char DOLLAR body = false ->
  has_char BACKTICK (pre ++ (DOLLARS ++ body ++ DOLLARS) ++ post) = false ->
  contains TILDES (pre ++ (DOLLARS ++ body ++ DOLLARS) ++ post) = false ->
  preprocessMathInMarkdown (pre ++ (DOLLARS ++ body ++ DOLLARS) ++ post)
  = pre ++ blockMarker (escapeHtmlAttr (trim body))
    ++ preprocessMathInMarkdown post.
Proof.
  intros Hp Hb Hbt Htl.
  rewrite preprocess_no_code by assumption.
  rewrite replaceBlockMath_block by assumption.
  rewrite replaceInlineMath_skip by now apply quiet_inline_no_dollar.
  rewrite replaceInlineMath_skip.
  - rewrite app_assoc in Hbt, Htl.
    destruct (code_free_app _ _ Hbt Htl) as [H1 H2].
    now rewrite (preprocess_no_code post H1 H2).
  - apply quiet_inline_no_dollar, blockMarker_no_dollar.
    now apply escape_keeps_out_dollar, has_char_trim.
Qed.

Lemma block_math_in_context_witness :
  preprocessMathInMarkdown
    (lit "before" ++ [NL] ++ lit "$$" ++ [NL] ++ lit "5" ++ [NL] ++ lit "$$"
     ++ [NL] ++ lit "then $x$")
  = lit "before" ++ [NL] ++ blockMarker (lit "5") ++ [NL] ++ lit "then "
    ++ inlineMarker (lit "x").
Proof.
  etransitivity;
    [exact (block_math_in_context (lit "before" ++ [NL]) ([NL] ++ lit "5" ++ [NL])
              ([NL] ++ lit "then $x$") eq_refl eq_refl eq_refl eq_refl)
    |reflexivity].
Defined.

Lemma contains_dollars_isolated (a b : str) :
  has_char DOLLAR a = false -> has_char DOLLAR b = false ->
  contains DOLLARS (a ++ [DOLLAR] ++ b) = false.
Proof.
  intros Ha Hb. unfold DOLLARS. rewrite contains_skip_prefix by exact Ha.
  cbn [app]. rewrite contains_cons.
  rewrite contains_no_char by exact Hb. rewrite orb_false_r.
  destruct b as [|c b]; [reflexivity|].
  apply has_char_false_cons in Hb as [Hc _].
  cbn [starts]. rewrite N.eqb_refl. now eqb_false.
Qed.

(** Inline math does not reach over a newline: two dollar signs on
    different lines, with no other dollar sign around, stay as they are. *)
Theorem inline_math_stays_on_one_line (pre a b post : str) :
  has_char DOLLAR pre = false -> has_char DOLLAR a = false ->
  has_char DOLLAR b = false -> has_char DOLLAR post = false ->
  let text := pre ++ [DOLLAR] ++ a ++ (NL :: b ++ [DOLLAR] ++ post) in
  has_char BACKTICK text = false -> contains TILDES text = false ->
  preprocessMathInMarkdown text = text.
Proof.
  intros Hp Ha Hb Hq text Hbt Htl.
  rewrite preprocess_no_code by assumption. unfold text.
  assert (Hnb : has_char DOLLAR (NL :: b) = false)
    by (rewrite has_char_cons, Hb; reflexivity).
  rewrite block_pass_unmatched_single by (trivial; reflexivity).
  assert (E : replaceBlockMath (NL :: b ++ [DOLLAR] ++ post)
              = NL :: b ++ [DOLLAR] ++ post).
  { apply replaceBlockMath_no_dollars.
    now apply (contains_dollars_isolated (NL :: b) post). }
  rewrite E.
  rewrite inline_pass_unmatched_single by (trivial; reflexivity).
  do 3 f_equal.
  pose proof (inline_pass_unmatched_single (NL :: b) post [] Hnb Hq I) as H.
  rewrite !app_nil_r in H. exact H.
Qed.

Lemma inline_math_stays_on_one_line_witness :
  preprocessMathInMarkdown (lit "a $x" ++ [NL] ++ lit "y$ b")
  = lit "a $x" ++ [NL] ++ lit "y$ b".
Proof.
  exact (inline_math_stays_on_one_line (lit "a ") (lit "x") (lit "y") (lit " b")
           eq_refl eq_refl eq_refl eq_refl eq_refl eq_refl).
Defined.

(** ** What the classifier decides *)

Lemma isPureNumber_needs_digit (s : str) :
  starts_with_digit s = false -> isPureNumber s = false.
Proof.
  unfold isPureNumber, many1, starts_with_digit.
  destruct s as [|c t]; [reflexivity|]. now intros ->.
Qed.

Lemma looksLikePlainText_needs_digit (s : str) :
  starts_with_digit s = false -> looksLikePlainText s = false.
Proof.
  intros H. unfold looksLikePlainText.
  rewrite isPureNumber_needs_digit by exact H.
  rewrite startsWithNumber_first_digit. fold (starts_with_digit s).
  now rewrite H.
Qed.

(** An inline candidate whose trimmed interior does not begin with a digit
    is always converted: only number-led interiors can be taken for plain
    text. *)
Theorem inline_math_not_led_by_digit (pre interior post : str) :
  interior <> [] ->
  has_char DOLLAR interior = false ->
  has_char NL interior = false ->
  has_char DOLLAR pre = false ->
  starts_with_digit (trim interior) = false ->
  looksLikePlainText (trim interior) = false
  /\ replaceInlineMath (pre ++ ([DOLLAR] ++ interior ++ [DOLLAR]) ++ post)
     = pre ++ inlineMarker (escapeHtmlAttr (trim interior))
       ++ replaceInlineMath post.
Proof.
  intros Hne Hd Hn Hp Hs.
  pose proof (looksLikePlainText_needs_digit _ Hs) as Hc.
  split; [exact Hc|].
  rewrite replaceInlineMath_candidate by assumption.
  unfold inlineReplacer. now rewrite Hc.
Qed.

Lemma inline_math_not_led_by_digit_witness :
  replaceInlineMath (lit "so $ x = 5 and y $ holds")
  = lit "so " ++ inlineMarker (lit "x = 5 and y") ++ lit " holds".
Proof.
  exact (proj2 (inline_math_not_led_by_digit (lit "so ") (lit " x = 5 and y ")
                  (lit " holds") ltac:(discriminate)
                  eq_refl eq_refl eq_refl eq_refl)).
Defined.

Lemma dropWhile_app_all (p : char -> bool) (a rest : str) :
  forallb p a = true -> dropWhile p (a ++ rest) = dropWhile p rest.
Proof.
  induction a as [|c a IH]; cbn [app forallb dropWhile]; intros H;
    [reflexivity|].
  apply andb_prop in H as [H1 H2]. now rewrite H1, IH.
Qed.

Lemma many1_digits (a rest : str) :
  a <> [] -> forallb is_digit a = true ->
  many1 is_digit (a ++ rest) = Some (dropWhile is_digit rest).
Proof.
  intros Hne H. destruct a as [|c a]; [congruence|].
  cbn [forallb] in H. apply andb_prop in H as [H1 H2].
  cbn [app many1]. now rewrite H1, dropWhile_app_all.
Qed.

Lemma comma_groups_not_comma (s : str) :
  match s with c :: _ => is_comma c = false | [] => True end ->
  comma_groups s = s.
Proof.
  destruct s as [|c [|d1 [|d2 [|d3 t]]]]; try reflexivity.
  intros H. cbn [comma_groups]. now rewrite H.
Qed.

Lemma isPureNumber_digits (a : str) :
  a <> [] -> forallb is_digit a = true -> isPureNumber a = true.
Proof.
  intros Hne H. unfold isPureNumber.
  rewrite <- (app_nil_r a) at 1. rewrite many1_digits by assumption.
  cbn [dropWhile]. now destruct (_ <=? 3).
Qed.

Lemma isPureNumber_decimal (a b : str) :
  a <> [] -> forallb is_digit a = true ->
  b <> [] -> forallb is_digit b = true ->
  isPureNumber (a ++ [46%N] ++ b) = true.
Proof.
  intros Ha1 Ha2 Hb1 Hb2. unfold isPureNumber.
  rewrite many1_digits by assumption.
  change (dropWhile is_digit ([46%N] ++ b)) with ([46%N] ++ b).
  assert (E : decimal_part ([46%N] ++ b) = []).
  { cbn [app decimal_part]. change (is_dot 46%N) with true. cbv iota.
    rewrite <- (app_nil_r b) at 1. now rewrite many1_digits. }
  rewrite comma_groups_not_comma by reflexivity.
  destruct (_ <=? 3); now rewrite E.
Qed.

(** An inline candidate whose trimmed interior is a run of digits, or two
    runs of digits around a dot, is taken for an amount and left in the
    text with its dollar signs. *)
Theorem plain_number_is_not_math (pre interior post a b : str) :
  interior <> [] ->
  has_char DOLLAR interior = false ->
  has_char NL interior = false ->
  has_char DOLLAR pre = false ->
  a <> [] -> forallb is_digit a = true -> forallb is_digit b = true ->
  trim interior = a \/ (b <> [] /\ trim interior = a ++ [46%N] ++ b) ->
  replaceInlineMath (pre ++ ([DOLLAR] ++ interior ++ [DOLLAR]) ++ post)
  = pre ++ ([DOLLAR] ++ interior ++ [DOLLAR]) ++ replaceInlineMath post.
Proof.
  intros Hne Hd Hn Hp Ha1 Ha2 Hb2 Ht.
  rewrite replaceInlineMath_candidate by assumption.
  assert (Hpure : isPureNumber (trim interior) = true).
  { destruct Ht as [->|[Hb1 ->]].
    - now apply isPureNumber_digits.
    - now apply isPureNumber_decimal. }
  unfold inlineReplacer, looksLikePlainText. now rewrite Hpure.
Qed.

Lemma plain_number_is_not_math_witness :
  replaceInlineMath
    (lit "costs " ++ ([DOLLAR] ++ lit " 10.99 " ++ [DOLLAR]) ++ lit " each")
  = lit "costs $ 10.99 $ each".
Proof.
  assert (H1 : lit " 10.99 " <> []) by discriminate.
  assert (H2 : lit "10" <> []) by discriminate.
  assert (H3 : lit "99" <> [] /\ trim (lit " 10.99 ") = lit "10" ++ [46%N] ++ lit "99") by (split; [discriminate|reflexivity]).
  pose proof (plain_number_is_not_math (lit "costs ") (lit " 10.99 ")
              (lit " each") (lit "10") (lit "99") H1
              eq_refl eq_refl eq_refl H2 eq_refl eq_refl
              (or_intror H3)) as H.
  etransitivity; [exact H|].
  (vm_compute; reflexivity).
Defined.

(** ** Sentinels *)

Lemma lit_app (a b : string) : lit (a ++ b) = lit a ++ lit b.
Proof.
  unfold lit. induction a as [|c a IH]; [reflexivity|].
  cbn [String.append list_ascii_of_string map app]. now rewrite IH.
Qed.

Lemma lit_injective (a b : string) : lit a = lit b -> a = b.
Proof.
  revert b. induction a as [|c a IH]; intros [|d b] H; try discriminate.
  - reflexivity.
  - unfold lit in H. cbn [list_ascii_of_string map] in H.
    injection H as H1 H2. f_equal.
    + rewrite <- (ascii_N_embedding c), <- (ascii_N_embedding d).
      now rewrite H1.
    + now apply IH.
Qed.

Lemma uint_digits (u : Decimal.uint) :
  forallb is_digit (lit (NilEmpty.string_of_uint u)) = true.
Proof.
  induction u; [reflexivity| | | | | | | | | |]; exact IHu.
Qed.

Lemma digits_have_no (c : char) (s : str) :
  is_digit c = false -> forallb is_digit s = true -> has_char c s = false.
Proof.
  intros Hc. induction s as [|x s IH]; cbn [forallb]; intros H; [reflexivity|].
  apply andb_prop in H as [H1 H2]. rewrite has_char_cons, IH by exact H2.
  destruct (N.eqb_spec c x); [congruence|reflexivity].
Qed.

(** The text of a sentinel between its two NUL characters. *)
Lemma sentinel_shape (idx : nat) :
  exists body,
    sentinel idx = NUL :: body ++ [NUL]
    /\ body <> []
    /\ forallb (fun c => is_word c) body = true.
Proof.
  exists (lit "MATH_PLACEHOLDER_"
          ++ lit (NilEmpty.string_of_uint (Nat.to_uint idx))).
  split; [|split].
  - unfold sentinel. cbn [app]. now rewrite <- app_assoc.
  - discriminate.
  - rewrite forallb_app. apply andb_true_intro. split; [reflexivity|].
    pose proof (uint_digits (Nat.to_uint idx)) as H.
    induction (lit (NilEmpty.string_of_uint (Nat.to_uint idx)))
      as [|c s IH]; [reflexivity|].
    cbn [forallb] in *. apply andb_prop in H as [H1 H2].
    unfold is_word. rewrite H1, orb_true_r. now apply IH.
Qed.

Lemma word_chars_have_no (c : char) (s : str) :
  is_word c = false -> forallb (fun x => is_word x) s = true ->
  has_char c s = false.
Proof.
  intros Hc. induction s as [|x s IH]; cbn [forallb]; intros H; [reflexivity|].
  apply andb_prop in H as [H1 H2]. rewrite has_char_cons, IH by exact H2.
  destruct (N.eqb_spec c x); [congruence|reflexivity].
Qed.

Lemma sentinel_has_no (c : char) (idx : nat) :
  is_word c = false -> c <> NUL -> has_char c (sentinel idx) = false.
Proof.
  intros Hw Hn. destruct (sentinel_shape idx) as (body & -> & _ & Hb).
  rewrite has_char_cons, has_char_app, (word_chars_have_no c body Hw Hb).
  cbn [has_char existsb]. now eqb_false.
Qed.

Lemma split_at_first (c : char) (a b x y : str) :
  has_char c a = false -> has_char c b = false ->
  a ++ c :: x = b ++ c :: y -> a = b /\ x = y.
Proof.
  revert b. induction a as [|p a IH]; intros [|q b] Ha Hb H; cbn [app] in H.
  - injection H as H. now split.
  - injection H as H1 H2. apply has_char_false_cons in Hb as [Hq _].
    congruence.
  - injection H as H1 H2. apply has_char_false_cons in Ha as [Hp _].
    congruence.
  - injection H as H1 H2.
    apply has_char_false_cons in Ha as [_ Ha].
    apply has_char_false_cons in Hb as [_ Hb].
    destruct (IH b Ha Hb H2) as [E1 E2]. subst. now split.
Qed.

Lemma starts_prefix (p s : str) :
  starts p s = true -> exists t, s = p ++ t.
Proof.
  revert s. induction p as [|c p IH]; intros s H; [now exists s|].
  destruct s as [|d s]; [discriminate|]. cbn [starts] in H.
  apply andb_prop in H as [H1 H2]. apply N.eqb_eq in H1. subst d.
  destruct (IH s H2) as [t ->]. now exists t.
Qed.

Lemma sentinel_injective (i j : nat) : sentinel i = sentinel j -> i = j.
Proof.
  unfold sentinel. intros H. cbn [app] in H. injection H as H.
  apply app_inv_tail in H.
  apply lit_injective in H.
  assert (E : Nat.to_uint i = Nat.to_uint j).
  { pose proof (NilEmpty.usu (Nat.to_uint i)) as Hi.
    pose proof (NilEmpty.usu (Nat.to_uint j)) as Hj.
    rewrite H in Hi. rewrite Hi in Hj. now injection Hj. }
  rewrite <- (DecimalNat.Unsigned.of_to i), <- (DecimalNat.Unsigned.of_to j).
  now rewrite E.
Qed.

(** Sentinels of different indices are different texts and none occurs
    inside another one; a sentinel holds no dollar sign, backtick, tilde or
    newline, so neither math pass changes it. *)
Theorem sentinels_are_distinct_and_inert :
  (forall i j, sentinel i = sentinel j -> i = j)
  /\ (forall i j, i <> j -> contains (sentinel i) (sentinel j) = false)
  /\ (forall i, has_char DOLLAR (sentinel i) = false
                /\ has_char BACKTICK (sentinel i) = false
                /\ has_char TILDE (sentinel i) = false
                /\ has_char NL (sentinel i) = false)
  /\ (forall i, replaceInlineMath (replaceBlockMath (sentinel i)) = sentinel i).
Proof.
  split; [exact sentinel_injective|]. split; [|split].
  - intros i j Hij.
    destruct (sentinel_shape i) as (bi & Ei & Hne & Hbi).
    destruct (sentinel_shape j) as (bj & Ej & _ & Hbj).
    pose proof (word_chars_have_no NUL bi eq_refl Hbi) as Hni.
    pose proof (word_chars_have_no NUL bj eq_refl Hbj) as Hnj.
    destruct (starts (sentinel i) (sentinel j)) eqn:Es.
    + exfalso. apply Hij, sentinel_injective.
      apply starts_prefix in Es as [t Et]. rewrite Ei, Ej in Et.
      cbn [app] in Et. injection Et as Et. rewrite <- app_assoc in Et.
      cbn [app] in Et.
      destruct (split_at_first NUL bj bi [] t Hnj Hni Et) as [E1 E2].
      rewrite Ei, Ej. now subst.
    + rewrite Ej at 1. rewrite Ej in Es. rewrite contains_cons, Es.
      rewrite Ei. rewrite contains_skip_prefix by exact Hnj.
      destruct bi as [|c bi]; [congruence|]. reflexivity.
  - intros i. repeat split; apply sentinel_has_no; (reflexivity || discriminate).
  - intros i.
    rewrite replaceBlockMath_plain
      by (apply sentinel_has_no; (reflexivity || discriminate)).
    apply replaceInlineMath_plain, sentinel_has_no;
      (reflexivity || discriminate).
Qed.

Lemma sentinels_are_distinct_and_inert_witness :
  contains (sentinel 1) (sentinel 10) = false.
Proof.
  assert (H : 1 <> 10) by discriminate.
  exact (proj1 (proj2 sentinels_are_distinct_and_inert) 1 10 H).
Defined.

(** ** Code regions that come back as they were *)

Lemma protectWith_skip (m : str -> option nat) (x post : str) (ps : list str) :
  protectWith m (length x) (x ++ post) ps = protectWith m 0 post ps.
Proof.
  induction x as [|c x IH]; cbn [length app protectWith];
    [destruct post; reflexivity|exact IH].
Qed.

Lemma protectWith_match (m : str -> option nat) (literal post : str)
    (ps : list str) :
  literal <> [] ->
  m (literal ++ post) = Some (length literal) ->
  protectWith m 0 (literal ++ post) ps
  = (sentinel (length ps) ++ fst (protectWith m 0 post (ps ++ [literal])),
     snd (protectWith m 0 post (ps ++ [literal]))).
Proof.
  intros Hne H. destruct literal as [|c x]; [congruence|].
  cbn [app protectWith]. cbn [app] in H. rewrite H.
  change (c :: x ++ post) with ((c :: x) ++ post).
  rewrite firstn_app, firstn_all, Nat.sub_diag, firstn_O, app_nil_r.
  unfold savePlaceholder. cbn [length pred]. rewrite protectWith_skip.
  now destruct (protectWith m 0 post _).
Qed.

Lemma match_tilde_head (c : char) (s : str) :
  c <> TILDE -> match_tilde (c :: s) = None.
Proof.
  intros H. apply match_tilde_not_start. unfold TILDES.
  apply starts_head_neq. congruence.
Qed.

Lemma match_tilde_found (body post : str) :
  has_char TILDE body = false ->
  match_tilde ((TILDES ++ body ++ TILDES) ++ post)
  = Some (length (TILDES ++ body ++ TILDES)).
Proof.
  intros H. unfold match_tilde. rewrite <- !app_assoc, starts_app.
  change (skipn 3 (TILDES ++ body ++ TILDES ++ post))
    with (body ++ TILDES ++ post).
  unfold TILDES at 1. rewrite indexOf_skip_prefix by exact H.
  assert (H0 : indexOf [TILDE; TILDE; TILDE] (TILDES ++ post) = Some 0)
    by reflexivity.
  rewrite H0. cbn [option_map]. f_equal. unfold TILDES.
  rewrite !length_app. cbn [length]. lia.
Qed.

Lemma run_length_fence (n : nat) (rest : str) :
  match rest with c :: _ => c <> BACKTICK | [] => True end ->
  run_length BACKTICK (repeat BACKTICK n ++ rest) = n.
Proof.
  intros H. induction n as [|n IH]; cbn [repeat app run_length].
  - destruct rest as [|c rest]; [reflexivity|].
    cbn [run_length]. now eqb_false.
  - rewrite N.eqb_refl. now rewrite IH.
Qed.

Lemma skipn_fence (n : nat) (rest : str) :
  skipn n (repeat BACKTICK n ++ rest) = rest.
Proof. induction n as [|n IH]; [reflexivity|exact IH]. Qed.

Lemma indexOf_closing_fence (k : nat) (body post : str) :
  has_char BACKTICK body = false ->
  indexOf (repeat BACKTICK (S k)) (body ++ repeat BACKTICK (S k) ++ post)
  = Some (length body).
Proof.
  intros Hb. change (repeat BACKTICK (S k)) with (BACKTICK :: repeat BACKTICK k).
  rewrite indexOf_skip_prefix by exact Hb.
  cbn [app indexOf].
  change (BACKTICK :: repeat BACKTICK k ++ post)
    with ((BACKTICK :: repeat BACKTICK k) ++ post).
  rewrite starts_app. cbn [option_map]. f_equal. lia.
Qed.

Lemma match_backtick_found (k : nat) (body post : str) :
  body <> [] -> has_char BACKTICK body = false ->
  match_backtick
    ((repeat BACKTICK (S k) ++ body ++ repeat BACKTICK (S k)) ++ post)
  = Some (length (repeat BACKTICK (S k) ++ body ++ repeat BACKTICK (S k))).
Proof.
  intros Hne Hb. unfold match_backtick. rewrite <- !app_assoc.
  assert (Hh : match body ++ repeat BACKTICK (S k) ++ post with
               | c :: _ => c <> BACKTICK
               | [] => True
               end).
  { destruct body as [|c body]; [congruence|].
    apply has_char_false_cons in Hb as [Hc _]. exact Hc. }
  rewrite run_length_fence by exact Hh.
  change (match_fence (S k) ?s)
    with (match indexOf (repeat BACKTICK (S k)) (skipn (S k) s) with
          | Some j => Some (S k + j + S k)
          | None => match_fence k s
          end).
  rewrite skipn_fence, indexOf_closing_fence by exact Hb.
  f_equal. rewrite !length_app, repeat_length. lia.
Qed.

Lemma replaceAllFrom_skip (whole pat tpl : str) (pos : nat) (x q : str) :
  replaceAllFrom whole pat tpl pos (length x) (x ++ q)
  = replaceAllFrom whole pat tpl (pos + length x) 0 q.
Proof.
  revert pos. induction x as [|c x IH]; intros pos;
    cbn [length app replaceAllFrom].
  - rewrite Nat.add_0_r. destruct q; reflexivity.
  - rewrite IH.
    now replace (S pos + length x) with (pos + S (length x)) by lia.
Qed.

Lemma replaceAllFrom_quiet (whole tpl : str) (c0 : char) (pat : str)
    (pos : nat) (p q : str) :
  has_char c0 p = false ->
  replaceAllFrom whole (c0 :: pat) tpl pos 0 (p ++ q)
  = p ++ replaceAllFrom whole (c0 :: pat) tpl (pos + length p) 0 q.
Proof.
  revert pos. induction p as [|c p IH]; intros pos H; cbn [app length].
  - now rewrite Nat.add_0_r.
  - apply has_char_false_cons in H as [Hc Hp].
    cbn [replaceAllFrom]. rewrite starts_head_neq by congruence.
    rewrite IH by exact Hp.
    now replace (S pos + length p) with (pos + S (length p)) by lia.
Qed.

Lemma replaceAllFrom_none (whole tpl : str) (c0 : char) (pat : str)
    (pos : nat) (q : str) :
  has_char c0 q = false ->
  replaceAllFrom whole (c0 :: pat) tpl pos 0 q = q.
Proof.
  intros H. rewrite <- (app_nil_r q) at 1.
  rewrite replaceAllFrom_quiet by exact H. cbn [replaceAllFrom].
  apply app_nil_r.
Qed.

Lemma replaceAll_once (tpl : str) (c0 : char) (pat p q : str) :
  has_char c0 p = false -> has_char c0 q = false ->
  replaceAll (c0 :: pat) tpl (p ++ (c0 :: pat) ++ q)
  = p ++ getSubstitution (c0 :: pat) p q tpl ++ q.
Proof.
  intros Hp Hq. unfold replaceAll.
  rewrite replaceAllFrom_quiet by exact Hp. f_equal.
  cbn [app replaceAllFrom Nat.add].
  change (c0 :: pat ++ q) with ((c0 :: pat) ++ q). rewrite starts_app.
  rewrite firstn_app, firstn_all, Nat.sub_diag, firstn_O, app_nil_r.
  f_equal.
  - f_equal. rewrite app_assoc.
    rewrite <- (length_app p (c0 :: pat)).
    now rewrite skipn_app, skipn_all, Nat.sub_diag.
  - cbn [length pred]. rewrite replaceAllFrom_skip.
    now apply replaceAllFrom_none.
Qed.

Lemma getSubstitution_inert (matched before after template : str) :
  inert template = true ->
  getSubstitution matched before after template = template.
Proof.
  induction template as [|c t IH]; [reflexivity|].
  cbn [inert getSubstitution]. destruct (c =? DOLLAR)%N eqn:E.
  - apply N.eqb_eq in E. subst c. destruct t as [|d t']; [reflexivity|].
    intros H. apply andb_prop in H as [H1 H2].
    apply negb_true_iff in H1.
    repeat (apply orb_false_elim in H1 as [H1 ?]).
    repeat match goal with
           | X : (_ =? _)%N = false |- _ => rewrite X; clear X
           end.
    now rewrite IH.
  - intros H. now rewrite IH.
Qed.

Lemma sentinel_cons (idx : nat) :
  exists pat, sentinel idx = NUL :: pat.
Proof. now eexists. Qed.

Lemma restore_one (literal pre post : str) :
  has_char NUL pre = false -> has_char NUL post = false ->
  inert literal = true ->
  restoreFrom 0 [literal] (pre ++ sentinel 0 ++ post) = pre ++ literal ++ post.
Proof.
  intros Hp Hq Hi. cbn [restoreFrom].
  destruct (sentinel_cons 0) as [pat E]. rewrite E.
  rewrite replaceAll_once by assumption.
  now rewrite getSubstitution_inert.
Qed.

(** A tilde-fenced region in a text that otherwise has no dollar sign, no
    backtick, no tilde fence and no NUL comes back as it was, whatever it
    holds (math, backticks), as long as no dollar sign in it is followed by
    a dollar sign, an ampersand, a backtick or an apostrophe; no marker is
    emitted for the math in it. *)
Theorem tilde_fence_is_kept (pre body post : str) :
  has_char TILDE pre = false -> has_char TILDE body = false ->
  contains TILDES post = false ->
  has_char BACKTICK pre = false -> has_char BACKTICK post = false ->
  has_char DOLLAR pre = false -> has_char DOLLAR post = false ->
  has_char NUL pre = false -> has_char NUL post = false ->
  inert (TILDES ++ body ++ TILDES) = true ->
  protectCode (pre ++ (TILDES ++ body ++ TILDES) ++ post)
  = (pre ++ sentinel 0 ++ post, [TILDES ++ body ++ TILDES])
  /\ preprocessMathInMarkdown (pre ++ (TILDES ++ body ++ TILDES) ++ post)
     = pre ++ (TILDES ++ body ++ TILDES) ++ post.
Proof.
  intros Ht1 Ht2 Ht3 Hb1 Hb2 Hd1 Hd2 Hn1 Hn2 Hi.
  assert (Hs : forall c, is_word c = false -> c <> NUL ->
                 has_char c (pre ++ sentinel 0 ++ post)
                 = has_char c pre || has_char c post).
  { intros c Hw Hc. rewrite !has_char_app, sentinel_has_no by assumption.
    reflexivity. }
  assert (Hp : protectCode (pre ++ (TILDES ++ body ++ TILDES) ++ post)
               = (pre ++ sentinel 0 ++ post, [TILDES ++ body ++ TILDES])).
  { unfold protectCode.
    rewrite protectWith_quiet
      by (apply quiet_no_char with (d := TILDE);
          auto using match_tilde_head).
    rewrite (protectWith_match match_tilde (TILDES ++ body ++ TILDES) post []
               ltac:(discriminate) (match_tilde_found body post Ht2)).
    cbn [fst snd length app].
    rewrite (protectWith_id match_tilde post)
      by (apply quiet_tilde; now rewrite app_nil_r).
    cbn [fst snd]. apply protectWith_id.
    apply quiet_no_char with (d := BACKTICK);
      auto using match_backtick_head.
    rewrite Hs, Hb1, Hb2 by (reflexivity || discriminate). reflexivity. }
  split; [exact Hp|].
  unfold preprocessMathInMarkdown. rewrite Hp.
  assert (Hd : has_char DOLLAR (pre ++ sentinel 0 ++ post) = false)
    by (rewrite Hs, Hd1, Hd2 by (reflexivity || discriminate); reflexivity).
  rewrite replaceBlockMath_plain, replaceInlineMath_plain by assumption.
  now apply restore_one.
Qed.

Lemma tilde_fence_is_kept_witness :
  preprocessMathInMarkdown
    (lit "see " ++ (TILDES ++ lit "md $x^2$ and `$y$ z`" ++ TILDES) ++ lit " ok")
  = lit "see ~~~md $x^2$ and `$y$ z`~~~ ok".
Proof.
  etransitivity;
    [exact (proj2 (tilde_fence_is_kept (lit "see ")
                     (lit "md $x^2$ and `$y$ z`") (lit " ok")
                     eq_refl eq_refl eq_refl eq_refl eq_refl eq_refl eq_refl
                     eq_refl eq_refl eq_refl))
    |reflexivity].
Defined.

(** A code span between two runs of the same number of backticks, in a
    text that has no tilde fence anywhere, the span included, and outside
    the span no dollar sign, no backtick and no NUL, comes back as it was
    under the same condition on its dollar signs (in particular the span
    must not end in a dollar sign, which the closing backtick would
    follow); no marker is emitted for the math in it. *)
Theorem backtick_span_is_kept (k : nat) (pre body post : str) :
  let span := repeat BACKTICK (S k) ++ body ++ repeat BACKTICK (S k) in
  body <> [] -> has_char BACKTICK body = false ->
  contains TILDES (pre ++ span ++ post) = false ->
  has_char BACKTICK pre = false -> has_char BACKTICK post = false ->
  has_char DOLLAR pre = false -> has_char DOLLAR post = false ->
  has_char NUL pre = false -> has_char NUL post = false ->
  inert span = true ->
  protectCode (pre ++ span ++ post) = (pre ++ sentinel 0 ++ post, [span])
  /\ preprocessMathInMarkdown (pre ++ span ++ post) = pre ++ span ++ post.
Proof.
  intros span Hne Hb Ht Hb1 Hb2 Hd1 Hd2 Hn1 Hn2 Hi.
  assert (Hp : protectCode (pre ++ span ++ post)
               = (pre ++ sentinel 0 ++ post, [span])).
  { unfold protectCode.
    rewrite (protectWith_id match_tilde (pre ++ span ++ post))
      by (apply quiet_tilde; now rewrite app_nil_r).
    rewrite protectWith_quiet
      by (apply quiet_no_char with (d := BACKTICK);
          auto using match_backtick_head).
    pose proof (match_backtick_found k body post Hne Hb) as Hm.
    fold span in Hm.
    rewrite (protectWith_match match_backtick span post []
               ltac:(discriminate) Hm).
    cbn [fst snd length app].
    rewrite (protectWith_id match_backtick post)
      by (apply quiet_no_char with (d := BACKTICK);
          auto using match_backtick_head).
    reflexivity. }
  split; [exact Hp|].
  unfold preprocessMathInMarkdown. rewrite Hp.
  assert (Hd : has_char DOLLAR (pre ++ sentinel 0 ++ post) = false).
  { rewrite !has_char_app, sentinel_has_no, Hd1, Hd2
      by (reflexivity || discriminate).
    reflexivity. }
  rewrite replaceBlockMath_plain, replaceInlineMath_plain by assumption.
  now apply restore_one.
Qed.

Lemma backtick_span_is_kept_witness :
  preprocessMathInMarkdown
    (lit "Use " ++ (repeat BACKTICK 2 ++ lit "$x^2$ + 1" ++ repeat BACKTICK 2)
     ++ lit " here.")
  = lit "Use ``$x^2$ + 1`` here.".
Proof.
  assert (H : lit "$x^2$ + 1" <> []) by discriminate.
  etransitivity;
    [exact (proj2 (backtick_span_is_kept 1 (lit "Use ") (lit "$x^2$ + 1")
                     (lit " here.") H eq_refl eq_refl eq_refl eq_refl eq_refl
                     eq_refl eq_refl eq_refl eq_refl))
    |reflexivity].
Defined.

(** * Properties of the other parts *)

(** ** The table of contents *)

Lemma minDepth_fold_bounds (headers : list TableOfContentsItem) (start : Z) :
  let m := fold_left
             (fun min heading =>
                if (level heading <? min)%Z then level heading else min)
             headers start in
  (m <= start)%Z
  /\ (forall h, In h headers -> (m <= level h)%Z)
  /\ (m = start \/ exists h, In h headers /\ level h = m).
Proof.
  revert start. induction headers as [|x hs IH]; intros start; cbn [fold_left].
  - split; [lia|]. split; [contradiction|now left].
  - destruct (IH (if (level x <? start)%Z then level x else start))
      as (B1 & B2 & B3).
    destruct (Z.ltb_spec (level x) start) as [L|L].
    + split; [lia|]. split.
      * intros h [<-|Hh]; [exact B1|now apply B2].
      * right. destruct B3 as [E|(h & Hh & E)].
        -- exists x. split; [now left|now rewrite E].
        -- exists h. split; [now right|exact E].
    + split; [exact B1|]. split.
      * intros h [<-|Hh]; [lia|now apply B2].
      * destruct B3 as [E|(h & Hh & E)]; [now left|].
        right. exists h. split; [now right|exact E].
Qed.

Lemma minDepth_bounds (headers : list TableOfContentsItem) :
  (minDepth headers <= 10)%Z
  /\ (forall h, In h headers -> (minDepth headers <= level h)%Z)
  /\ (minDepth headers = 10%Z
      \/ exists h, In h headers /\ level h = minDepth headers).
Proof.
  unfold minDepth. destruct headers as [|x hs].
  - cbn. split; [lia|]. split; [contradiction|now left].
  - change (length (x :: hs) =? 0)%nat with false. cbv iota.
    apply (minDepth_fold_bounds (x :: hs) 10%Z).
Qed.

(** The depth the table of contents starts from is the smallest level
    among the headers, capped at 10: it is at most 10, no header lies
    below it, and unless it is 10 some header has it. *)
Theorem minDepth_is_capped_minimum (headers : list TableOfContentsItem) :
  (minDepth headers <= 10)%Z
  /\ (forall h, In h headers -> (minDepth headers <= level h)%Z)
  /\ (minDepth headers = 10%Z
      \/ exists h, In h headers /\ level h = minDepth headers)
  /\ (forall h, In h headers -> (level h < 10)%Z ->
      exists h', In h' headers /\ level h' = minDepth headers).
Proof.
  destruct (minDepth_bounds headers) as (B1 & B2 & B3).
  repeat split; trivial.
  intros h Hh Hl. destruct B3 as [E|B3]; [|exact B3].
  specialize (B2 h Hh). lia.
Qed.

Lemma minDepth_is_capped_minimum_witness :
  exists h', In h' [mkItem [] [] 3; mkItem [] [] 2; mkItem [] [] 4]
             /\ level h' = minDepth [mkItem [] [] 3; mkItem [] [] 2; mkItem [] [] 4].
Proof.
  assert (H : (level (mkItem [] [] 3) < 10)%Z) by reflexivity.
  exact (proj2 (proj2 (proj2 (minDepth_is_capped_minimum
           [mkItem [] [] 3; mkItem [] [] 2; mkItem [] [] 4])))
           (mkItem [] [] 3) (or_introl eq_refl) H).
Defined.

(** Every entry the component renders gets exactly one of its three
    styles: its level is the starting depth, one more, or two more. *)
Theorem visible_header_has_one_style (headers : list TableOfContentsItem)
    (h : TableOfContentsItem) :
  In h (visibleHeaders headers) ->
  In h headers
  /\ ((isH1 headers h = true /\ isH2 headers h = false /\ isH3 headers h = false)
      \/ (isH1 headers h = false /\ isH2 headers h = true /\ isH3 headers h = false)
      \/ (isH1 headers h = false /\ isH2 headers h = false /\ isH3 headers h = true)).
Proof.
  unfold visibleHeaders. intros H. apply filter_In in H as [Hin Hlt].
  split; [exact Hin|].
  apply Z.ltb_lt in Hlt. unfold maxLevel in Hlt.
  pose proof (proj1 (proj2 (minDepth_bounds headers)) h Hin) as Hge.
  unfold isH1, isH2, isH3.
  destruct (Z.eqb_spec (level h) (minDepth headers));
    destruct (Z.eqb_spec (level h) (minDepth headers + 1));
    destruct (Z.eqb_spec (level h) (minDepth headers + 2)); try lia; tauto.
Qed.

Lemma visible_header_has_one_style_witness :
  In (mkItem [] [] 4)
    [mkItem [] [] 3; mkItem [] [] 2; mkItem [] [] 4; mkItem [] [] 6].
Proof.
  assert (H : In (mkItem [] [] 4)
                (visibleHeaders
                   [mkItem [] [] 3; mkItem [] [] 2; mkItem [] [] 4;
                    mkItem [] [] 6]))
    by (cbn; tauto).
  exact (proj1 (visible_header_has_one_style _ _ H)).
Defined.

(** ** removeTailingHash *)

Lemma lastIndexOfFrom_bounds (c : char) (s : str) (i : Z) :
  (0 <= i)%Z ->
  lastIndexOfFrom c s i = (-1)%Z
  \/ (i <= lastIndexOfFrom c s i < i + Z.of_nat (length s))%Z.
Proof.
  revert i. induction s as [|x s IH]; intros i Hi; [now left|].
  cbn [lastIndexOfFrom length]. destruct (IH (i + 1)%Z ltac:(lia)) as [E|B].
  - rewrite E. cbn. destruct (x =? c)%N; [right; lia|now left].
  - destruct (Z.eqb_spec (lastIndexOfFrom c s (i + 1)) (-1)); [lia|].
    right. lia.
Qed.

Lemma lastIndexOfFrom_snoc_other (c d : char) (s : str) (i : Z) :
  d <> c -> lastIndexOfFrom c (s ++ [d]) i = lastIndexOfFrom c s i.
Proof.
  intros H. revert i. induction s as [|x s IH]; intros i;
    cbn [app lastIndexOfFrom].
  - apply N.eqb_neq in H. now rewrite H.
  - now rewrite IH.
Qed.

Lemma lastIndexOfFrom_snoc_same (c : char) (s : str) (i : Z) :
  (0 <= i)%Z ->
  lastIndexOfFrom c (s ++ [c]) i = (i + Z.of_nat (length s))%Z.
Proof.
  revert i. induction s as [|x s IH]; intros i Hi;
    cbn [app lastIndexOfFrom length].
  - rewrite N.eqb_refl. cbn. lia.
  - rewrite IH by lia.
    destruct (Z.eqb_spec (i + 1 + Z.of_nat (length s)) (-1)); lia.
Qed.

(** [removeTailingHash] takes one hash sign off the end of a text that
    ends in one, and leaves every other text, the empty one included, as
    it is. *)
Theorem removeTailingHash_strips_one_hash (s : str) :
  removeTailingHash (s ++ [HASH]) = s
  /\ removeTailingHash [] = []
  /\ (forall d, d <> HASH -> removeTailingHash (s ++ [d]) = s ++ [d]).
Proof.
  split; [|split].
  - unfold removeTailingHash, lastIndexOf.
    rewrite lastIndexOfFrom_snoc_same by lia. rewrite length_app.
    cbn [length].
    replace (Z.of_nat (length s + 1) - 1)%Z with (0 + Z.of_nat (length s))%Z
      by lia.
    rewrite Z.eqb_refl.
    destruct (Z.eqb_spec (0 + Z.of_nat (length s)) (-1)); [lia|].
    cbn [negb andb]. rewrite Z.add_0_l, Nat2Z.id.
    now rewrite firstn_app, firstn_all, Nat.sub_diag, firstn_O, app_nil_r.
  - reflexivity.
  - intros d Hd. unfold removeTailingHash, lastIndexOf.
    rewrite lastIndexOfFrom_snoc_other by exact Hd.
    rewrite length_app. cbn [length].
    destruct (lastIndexOfFrom_bounds HASH s 0 ltac:(lia)) as [E|B].
    + now rewrite E.
    + destruct (Z.eqb_spec (lastIndexOfFrom HASH s 0)
                  (Z.of_nat (length s + 1) - 1)); [lia|].
      now rewrite andb_false_r.
Qed.

Lemma removeTailingHash_strips_one_hash_witness :
  removeTailingHash (lit "Intro ?") = lit "Intro ?".
Proof.
  assert (H : 63%N <> HASH) by discriminate.
  exact (proj2 (proj2 (removeTailingHash_strips_one_hash (lit "Intro ")))
           63%N H).
Defined.

(** ** The last block of active headings *)

Lemma skipInactive_falses (active : list bool) (a m f : nat) :
  (forall k, k < m -> nth (a + k) active false = false) ->
  skipInactive (m + f) active (Z.of_nat (a + m) - 1)
  = skipInactive f active (Z.of_nat a - 1).
Proof.
  induction m as [|m IH]; intros H.
  - now rewrite Nat.add_0_r.
  - cbn [Nat.add skipInactive]. unfold activeAt.
    replace (Z.to_nat (Z.of_nat (a + S m) - 1)) with (a + m) by lia.
    rewrite H by lia.
    destruct (Z.leb_spec 0 (Z.of_nat (a + S m) - 1)); [|lia].
    cbn [negb andb].
    replace (Z.of_nat (a + S m) - 1 - 1)%Z with (Z.of_nat (a + m) - 1)%Z
      by lia.
    apply IH. intros k Hk. apply H. lia.
Qed.

Lemma collectActive_trues (active : list bool) (a n f : nat) (lo hi : Z) :
  (forall k, k <= n -> nth (a + k) active false = true) ->
  collectActive (S n + f) active (Z.of_nat (a + S n) - 1) lo hi
  = collectActive f active (Z.of_nat a - 1) (Z.min lo (Z.of_nat a))
      (Z.max hi (Z.of_nat (a + S n) - 1)).
Proof.
  revert lo hi. induction n as [|n IH]; intros lo hi H.
  - cbn [Nat.add collectActive]. unfold activeAt.
    replace (Z.to_nat (Z.of_nat (a + 1) - 1)) with (a + 0) by lia.
    rewrite H by lia.
    destruct (Z.leb_spec 0 (Z.of_nat (a + 1) - 1)); [|lia].
    cbn [andb].
    replace (Z.of_nat (a + 1) - 1 - 1)%Z with (Z.of_nat a - 1)%Z by lia.
    f_equal; lia.
  - change (S (S n) + f) with (S (S n + f)). cbn [collectActive].
    unfold activeAt.
    replace (Z.to_nat (Z.of_nat (a + S (S n)) - 1)) with (a + S n) by lia.
    rewrite H by lia.
    destruct (Z.leb_spec 0 (Z.of_nat (a + S (S n)) - 1)); [|lia].
    cbn [andb].
    replace (Z.of_nat (a + S (S n)) - 1 - 1)%Z
      with (Z.of_nat (a + S n) - 1)%Z by lia.
    rewrite IH by (intros k Hk; apply H; lia).
    f_equal; lia.
Qed.

Lemma range_shift (a k b : nat) :
  map (fun j => (Z.of_nat a + Z.of_nat j)%Z) (seq b k)
  = map Z.of_nat (seq (a + b) k).
Proof.
  revert b. induction k as [|k IH]; intros b; [reflexivity|].
  cbn [seq map]. f_equal; [lia|].
  rewrite IH. now rewrite Nat.add_succ_r.
Qed.

Lemma range_seq (a n : nat) :
  range (Z.of_nat a) (Z.of_nat (a + S n) - 1) = map Z.of_nat (seq a (S n)).
Proof.
  unfold range.
  replace (Z.to_nat (Z.of_nat (a + S n) - 1 - Z.of_nat a + 1)) with (S n)
    by lia.
  rewrite range_shift. now rewrite Nat.add_0_r.
Qed.

(** The block that ends at the last active heading.  If no heading is
    active the block is empty.  Otherwise the headings end with a run of
    active ones (followed by inactive ones only, and preceded by an
    inactive one or by nothing) and the block holds exactly the indices of
    that run, in order.  Any amount of fuel above the number of headings
    gives the same result. *)
Theorem lastActiveBlock_is_last_run (front : list bool) (n m fuel : nat) :
  front = [] \/ (exists f, front = f ++ [false]) ->
  length (front ++ repeat true (S n) ++ repeat false m) < fuel ->
  lastActiveBlockWith fuel (front ++ repeat true (S n) ++ repeat false m)
  = map Z.of_nat (seq (length front) (S n))
  /\ lastActiveBlock (front ++ repeat true (S n) ++ repeat false m)
     = map Z.of_nat (seq (length front) (S n))
  /\ (0 < m -> lastActiveBlockWith fuel (repeat false m) = []).
Proof.
  intros Hfront Hfuel.
  assert (Main : forall fuel',
    length (front ++ repeat true (S n) ++ repeat false m) < fuel' ->
    lastActiveBlockWith fuel' (front ++ repeat true (S n) ++ repeat false m)
    = map Z.of_nat (seq (length front) (S n))).
  { clear fuel Hfuel. intros fuel Hfuel.
    set (active := front ++ repeat true (S n) ++ repeat false m) in *.
    set (a := length front).
    assert (Hlen : length active = a + S n + m).
    { unfold active. rewrite !length_app, !repeat_length. fold a. lia. }
    assert (Hf : forall k, k < m -> nth (a + S n + k) active false = false).
    { intros k Hk. unfold active, a.
      rewrite app_assoc, app_nth2; rewrite length_app, repeat_length; [|lia].
      replace (length front + S n + k - (length front + S n)) with k by lia.
      now rewrite nth_repeat. }
    assert (Ht : forall k, k <= n -> nth (a + k) active false = true).
    { intros k Hk. unfold active, a.
      rewrite app_nth2 by lia.
      replace (length front + k - length front) with k by lia.
      rewrite app_nth1 by (rewrite repeat_length; lia).
      rewrite nth_repeat_lt by lia. reflexivity. }
    assert (Hstop : a = 0 \/ nth (a - 1) active false = false /\ 0 < a).
    { destruct Hfront as [E|[f E]].
      - left. unfold a. now rewrite E.
      - right. unfold active, a. rewrite E, length_app. cbn [length].
        split; [|lia].
        rewrite <- !app_assoc.
        replace (length f + 1 - 1) with (length f) by lia.
        rewrite app_nth2 by lia. now rewrite Nat.sub_diag. }
    unfold lastActiveBlockWith. rewrite Hlen.
    destruct fuel as [|fuel]; [lia|].
    assert (Hskip : skipInactive (S fuel) active (Z.of_nat (a + S n + m) - 1)
                    = (Z.of_nat (a + S n) - 1)%Z).
    { replace (S fuel) with (m + S (fuel - m)) by lia.
      rewrite (skipInactive_falses active (a + S n) m (S (fuel - m)) Hf).
      cbn [skipInactive]. unfold activeAt.
      replace (Z.to_nat (Z.of_nat (a + S n) - 1)) with (a + n) by lia.
      rewrite Ht by lia. now rewrite andb_false_r. }
    rewrite Hskip.
    replace (S fuel) with (S n + (fuel - n)) by lia.
    rewrite (collectActive_trues active a n (fuel - n) _ _ Ht).
    assert (Hend : forall lo hi,
              collectActive (fuel - n) active (Z.of_nat a - 1) lo hi = (lo, hi)).
    { intros lo hi. destruct (fuel - n) as [|g]; [reflexivity|].
      cbn [collectActive]. destruct Hstop as [E|[E Hpos]].
      - rewrite E. reflexivity.
      - unfold activeAt.
        replace (Z.to_nat (Z.of_nat a - 1)) with (a - 1) by lia.
        rewrite E. now rewrite andb_false_r. }
    rewrite Hend.
    replace (Z.min (Z.of_nat (a + S n + m) - 1) (Z.of_nat a)) with (Z.of_nat a)
      by lia.
    replace (Z.max (-1) (Z.of_nat (a + S n) - 1))
      with (Z.of_nat (a + S n) - 1)%Z by lia.
    destruct (Z.leb_spec (Z.of_nat a) (Z.of_nat (a + S n) - 1)); [|lia].
    apply range_seq. }
  split; [now apply Main|]. split.
  - apply Main. lia.
  - intros Hm. unfold lastActiveBlockWith. rewrite repeat_length.
    destruct fuel as [|fuel]; [lia|].
    assert (Hfuel' : m <= fuel).
    { rewrite !length_app, !repeat_length in Hfuel. lia. }
    assert (Hskip : skipInactive (S fuel) (repeat false m) (Z.of_nat m - 1)
                    = (-1)%Z).
    { replace (S fuel) with (m + S (fuel - m)) by lia.
      pose proof (skipInactive_falses (repeat false m) 0 m (S (fuel - m)))
        as Hs.
      cbn [Nat.add] in Hs.
      rewrite Hs by (intros k Hk; now rewrite nth_repeat).
      reflexivity. }
    rewrite Hskip. cbn [collectActive Z.leb andb].
    change (0 <=? -1)%Z with false. cbn [andb].
    destruct (Z.leb_spec (Z.of_nat m - 1) (-1)); [lia|reflexivity].
Qed.

Lemma lastActiveBlock_is_last_run_witness :
  lastActiveBlock [true; false; true; true; false] = [2%Z; 3%Z].
Proof.
  assert (H : length ([true; false] ++ repeat true 2 ++ repeat false 1) < 6)
    by (cbn; lia).
  exact (proj1 (proj2 (lastActiveBlock_is_last_run [true; false] 1 1 6
                         (or_intror (ex_intro _ [true] eq_refl)) H))).
Defined.

(** ** Pagination *)

Lemma bar_from_all (k : nat) (b : nat) :
  bar_from (Z.of_nat b) (map (fun i => Page (Z.of_nat i + 1)) (seq b k)).
Proof.
  revert b. induction k as [|k IH]; intros b; [exact I|].
  cbn [seq map bar_from]. split; [reflexivity|].
  replace (Z.of_nat b + 1)%Z with (Z.of_nat (S b)) by lia. apply IH.
Qed.

(** For a current page within 1..total the bar starts at page 1, ends at
    page [total], shows the current page, has at most seven entries, and
    reads as a walk from page 1: neighbours without an ellipsis between
    them are consecutive pages and each ellipsis hides at least two
    pages. *)
Theorem getPageNumbers_shape (current total : Z) :
  (1 <= current <= total)%Z ->
  let bar := getPageNumbers current total in
  hd_error bar = Some (Page 1)
  /\ last bar Ellipsis = Page total
  /\ In (Page current) bar
  /\ length bar <= 7
  /\ ((7 < total)%Z -> length bar = 7)
  /\ bar_from 0 bar.
Proof.
  intros H bar. unfold bar, getPageNumbers.
  destruct (Z.leb_spec total 7) as [L|L].
  - assert (E : (total = 1 \/ total = 2 \/ total = 3 \/ total = 4 \/ total = 5
                \/ total = 6 \/ total = 7)%Z)
        by lia.
    assert (C : (current = 1 \/ current = 2 \/ current = 3 \/ current = 4
                \/ current = 5 \/ current = 6 \/ current = 7)%Z)
        by lia.
    repeat destruct E as [E|E]; subst total;
      repeat destruct C as [C|C]; subst current; try lia;
      vm_compute; repeat split; try lia; try discriminate; auto 12.
  - destruct (Z.leb_spec current 4) as [C|C].
    + cbn [hd_error last length In bar_from].
      repeat split; try lia.
      assert (E : (current = 1 \/ current = 2 \/ current = 3 \/ current = 4)%Z)
        by lia.
      repeat destruct E as [E|E]; subst current; cbn; auto 12.
    + destruct (Z.geb_spec current (total - 3)) as [G|G].
      * cbn [hd_error last length In bar_from].
        repeat split; try lia.
        assert (E : (current = total - 3 \/ current = total - 2
                    \/ current = total - 1 \/ current = total)%Z)
        by lia.
        repeat destruct E as [E|E]; subst current; cbn; auto 12.
      * cbn [hd_error last length In bar_from].
        repeat split; try lia. cbn; auto 12.
Qed.

Lemma getPageNumbers_shape_witness :
  In (Page 6) (getPageNumbers 6 20) /\ bar_from 0 (getPageNumbers 6 20).
Proof.
  assert (H : (1 <= 6 <= 20)%Z) by lia.
  pose proof (getPageNumbers_shape 6 20 H) as (_ & _ & H3 & _ & _ & H6).
  split; assumption.
Defined.

(** With at most seven pages the bar lists every page and no ellipsis;
    with no page at all it is empty. *)
Theorem getPageNumbers_small_total (current total : Z) :
  (total <= 7)%Z ->
  getPageNumbers current total
  = map (fun i => Page (Z.of_nat i)) (seq 1 (Z.to_nat total))
  /\ ~ In Ellipsis (getPageNumbers current total)
  /\ (forall n, In (Page n) (getPageNumbers current total)
                <-> (1 <= n <= total)%Z).
Proof.
  intros H. unfold getPageNumbers.
  destruct (Z.leb_spec total 7) as [_|L]; [|lia].
  assert (E : map (fun i => Page (Z.of_nat i + 1)) (seq 0 (Z.to_nat total))
              = map (fun i => Page (Z.of_nat i)) (seq 1 (Z.to_nat total))).
  { rewrite <- seq_shift, map_map. apply map_ext. intros i. f_equal. lia. }
  split; [exact E|]. rewrite E. split.
  - intros Hin. apply in_map_iff in Hin as (i & Hi & _). discriminate.
  - intros n. rewrite in_map_iff. split.
    + intros (i & Hi & Hin). injection Hi as <-. apply in_seq in Hin. lia.
    + intros Hn. exists (Z.to_nat n). split; [f_equal; lia|].
      apply in_seq. lia.
Qed.

Lemma getPageNumbers_small_total_witness :
  getPageNumbers 2 3 = [Page 1; Page 2; Page 3].
Proof.
  assert (H : (3 <= 7)%Z) by lia.
  exact (proj1 (getPageNumbers_small_total 2 3 H)).
Defined.

Lemma paginatedLinks_concat {A : Type} (pageSize : nat) (links : list A)
    (k : nat) :
  0 < pageSize ->
  concat (map (paginatedLinks pageSize links) (seq 1 k))
  = firstn (k * pageSize) links.
Proof.
  intros Hp. induction k as [|k IH]; [reflexivity|].
  rewrite seq_S, map_app, concat_app, IH. cbn [map concat Nat.add].
  rewrite app_nil_r. unfold paginatedLinks.
  replace (S k - 1) with k by lia.
  replace (S k * pageSize - k * pageSize) with pageSize by lia.
  rewrite <- (firstn_skipn (k * pageSize) (firstn (S k * pageSize) links)).
  f_equal.
  - rewrite firstn_firstn. f_equal. lia.
  - rewrite skipn_firstn_comm. f_equal. lia.
Qed.

Lemma totalPages_covers (pageSize n : nat) :
  0 < pageSize ->
  n <= totalPages pageSize n * pageSize
  /\ (0 < n -> (totalPages pageSize n - 1) * pageSize < n).
Proof.
  intros Hp. unfold totalPages.
  pose proof (Nat.div_mod_eq (n + pageSize - 1) pageSize) as E.
  pose proof (Nat.mod_upper_bound (n + pageSize - 1) pageSize ltac:(lia)) as B.
  split; nia.
Qed.

(** The pages cut the list into consecutive pieces: put one after the
    other, the pages 1 to [totalPages] give the list back; each of them
    holds at least one link and at most a page size of them. *)
Theorem paginatedLinks_partition {A : Type} (pageSize : nat) (links : list A) :
  0 < pageSize ->
  concat (map (paginatedLinks pageSize links)
            (seq 1 (totalPages pageSize (length links))))
  = links
  /\ (forall p, 1 <= p <= totalPages pageSize (length links) ->
      1 <= length (paginatedLinks pageSize links p) <= pageSize)
  /\ (forall p, totalPages pageSize (length links) < p ->
      paginatedLinks pageSize links p = []).
Proof.
  intros Hp.
  destruct (totalPages_covers pageSize (length links) Hp) as [C1 C2].
  split; [|split].
  - rewrite paginatedLinks_concat by exact Hp. now apply firstn_all2.
  - intros p Hrange. unfold paginatedLinks.
    rewrite length_firstn, length_skipn.
    assert ((p - 1) * pageSize <= (totalPages pageSize (length links) - 1)
                                  * pageSize) by nia.
    assert (0 < length links).
    { destruct (length links); [|lia]. unfold totalPages in Hrange.
      rewrite Nat.div_small in Hrange by lia. lia. }
    specialize (C2 ltac:(lia)). nia.
  - intros p Hbig. unfold paginatedLinks.
    rewrite skipn_all2; [now rewrite firstn_nil|]. nia.
Qed.

Lemma paginatedLinks_partition_witness :
  concat (map (paginatedLinks 2 [1; 2; 3; 4; 5]) (seq 1 (totalPages 2 5)))
  = [1; 2; 3; 4; 5].
Proof.
  assert (H : 0 < 2) by lia.
  exact (proj1 (paginatedLinks_partition 2 [1; 2; 3; 4; 5] H)).
Defined.

(** The buttons never leave the range of pages, and at its two ends they
    stay where they are. *)
Theorem page_buttons_stay_in_range (total p : Z) :
  (1 <= p <= total)%Z ->
  (1 <= previousPage p <= total)%Z
  /\ (1 <= nextPage total p <= total)%Z
  /\ previousPage 1 = 1%Z
  /\ nextPage total total = total
  /\ ((1 < p)%Z -> nextPage total (previousPage p) = p)
  /\ ((p < total)%Z -> previousPage (nextPage total p) = p).
Proof.
  unfold previousPage, nextPage. intros H. repeat split; lia.
Qed.

Lemma page_buttons_stay_in_range_witness :
  previousPage (nextPage 3 2) = 2%Z.
Proof.
  assert (H : (1 <= 2 <= 3)%Z) by lia.
  assert (H' : (2 < 3)%Z) by lia.
  exact (proj2 (proj2 (proj2 (proj2 (proj2
           (page_buttons_stay_in_range 3 2 H))))) H').
Defined.

(** ** Publish dates *)

Ltac hide_div :=
  repeat match goal with
    | H : context [(?a / ?b)%N] |- _ =>
        let q := fresh "q" in set (q := (a / b)%N) in *; clearbody q
    | H : context [(?a mod ?b)%N] |- _ =>
        let r := fresh "r" in set (r := (a mod b)%N) in *; clearbody r
    end.


Lemma str_gtb_cons (x y : char) (a b : str) :
  str_gtb (x :: a) (y :: b) = (y <? x)%N || ((x =? y)%N && str_gtb a b).
Proof.
  cbn [str_gtb].
  destruct (N.ltb_spec y x), (N.ltb_spec x y), (N.eqb_spec x y);
    try reflexivity; lia.
Qed.

Lemma str_gtb_irrefl (a : str) : str_gtb a a = false.
Proof.
  induction a as [|x a IH]; [reflexivity|].
  rewrite str_gtb_cons, IH, N.ltb_irrefl. now rewrite andb_false_r.
Qed.

Lemma str_gtb_app (a a' b b' : str) :
  length a = length a' ->
  str_gtb (a ++ b) (a' ++ b')
  = str_gtb a a' || (str_eqb a a' && str_gtb b b').
Proof.
  revert a'. induction a as [|x a IH]; intros [|y a'] H; try discriminate.
  - reflexivity.
  - cbn [app str_eqb]. rewrite !str_gtb_cons, IH by (cbn in H; lia).
    destruct (y <? x)%N, (x =? y)%N; reflexivity.
Qed.

Lemma two_digits_compare (m n : N) :
  (m < 100)%N -> (n < 100)%N ->
  str_gtb (two_digits m) (two_digits n) = (n <? m)%N
  /\ str_eqb (two_digits m) (two_digits n) = (m =? n)%N.
Proof.
  intros Hm Hn. unfold two_digits. cbn [str_eqb].
  rewrite !str_gtb_cons. change (str_gtb [] []) with false.
  rewrite !andb_false_r, !orb_false_r, !andb_true_r.
  pose proof (N.div_mod m 10 ltac:(lia)).
  pose proof (N.div_mod n 10 ltac:(lia)).
  pose proof (N.mod_lt m 10 ltac:(lia)).
  pose proof (N.mod_lt n 10 ltac:(lia)).
  split.
  - destruct (N.ltb_spec (48 + n / 10) (48 + m / 10)),
      (N.eqb_spec (48 + m / 10) (48 + n / 10)),
      (N.ltb_spec (48 + n mod 10) (48 + m mod 10)),
      (N.ltb_spec n m); cbn; try reflexivity; exfalso; hide_div; lia.
  - destruct (N.eqb_spec (48 + m / 10) (48 + n / 10)),
      (N.eqb_spec (48 + m mod 10) (48 + n mod 10)),
      (N.eqb_spec m n); cbn; try reflexivity; exfalso; hide_div; lia.
Qed.

Lemma four_digits_compare (m n : N) :
  (m < 10000)%N -> (n < 10000)%N ->
  str_gtb (four_digits m) (four_digits n) = (n <? m)%N
  /\ str_eqb (four_digits m) (four_digits n) = (m =? n)%N.
Proof.
  intros Hm Hn. unfold four_digits.
  pose proof (N.div_mod m 100 ltac:(lia)).
  pose proof (N.div_mod n 100 ltac:(lia)).
  pose proof (N.mod_lt m 100 ltac:(lia)).
  pose proof (N.mod_lt n 100 ltac:(lia)).
  assert (m / 100 < 100)%N by (apply N.Div0.div_lt_upper_bound; lia).
  assert (n / 100 < 100)%N by (apply N.Div0.div_lt_upper_bound; lia).
  destruct (two_digits_compare (m / 100) (n / 100)) as [G1 E1]; try assumption.
  destruct (two_digits_compare (m mod 100) (n mod 100)) as [G2 E2]; try assumption.
  split.
  - rewrite str_gtb_app by reflexivity. rewrite G1, E1, G2.
    destruct (N.ltb_spec (n / 100) (m / 100)),
      (N.eqb_spec (m / 100) (n / 100)),
      (N.ltb_spec (n mod 100) (m mod 100)),
      (N.ltb_spec n m); cbn; try reflexivity; exfalso; hide_div; lia.
  - change (two_digits (m / 100) ++ two_digits (m mod 100))
      with ([(48 + m / 100 / 10)%N; (48 + (m / 100) mod 10)%N]
              ++ two_digits (m mod 100)).
    change (two_digits (n / 100) ++ two_digits (n mod 100))
      with ([(48 + n / 100 / 10)%N; (48 + (n / 100) mod 10)%N]
              ++ two_digits (n mod 100)).
    cbn [app str_eqb]. cbn [str_eqb two_digits] in E1, E2.
    rewrite andb_true_r in E1.
    destruct ((48 + m / 100 / 10 =? 48 + n / 100 / 10)%N);
      destruct ((48 + (m / 100) mod 10 =? 48 + (n / 100) mod 10)%N);
      cbn [andb] in E1 |- *;
      destruct (N.eqb_spec (m / 100) (n / 100)); try discriminate;
      try (destruct (N.eqb_spec m n); [exfalso; hide_div; lia|reflexivity]).
    rewrite andb_true_r in E2. unfold two_digits. cbn [str_eqb].
    rewrite andb_true_r, E2.
    destruct (N.eqb_spec (m mod 100) (n mod 100)), (N.eqb_spec m n);
      try reflexivity; exfalso; hide_div; lia.
Qed.

Lemma isoDate_length (y m d : N) : length (isoDate y m d) = 10.
Proof. reflexivity. Qed.

Lemma isoDate_gtb (y1 m1 d1 y2 m2 d2 : N) :
  (y1 < 10000 -> y2 < 10000 -> m1 < 100 -> m2 < 100 -> d1 < 100 -> d2 < 100 ->
   str_gtb (isoDate y1 m1 d1) (isoDate y2 m2 d2) = true
   <-> y2 < y1 \/ (y1 = y2 /\ (m2 < m1 \/ (m1 = m2 /\ d2 < d1))))%N.
Proof.
  intros Hy1 Hy2 Hm1 Hm2 Hd1 Hd2. unfold isoDate.
  destruct (four_digits_compare y1 y2 Hy1 Hy2) as [Gy Ey].
  destruct (two_digits_compare m1 m2 Hm1 Hm2) as [Gm Em].
  destruct (two_digits_compare d1 d2 Hd1 Hd2) as [Gd _].
  rewrite str_gtb_app by reflexivity. rewrite Gy, Ey.
  change ([45%N] ++ two_digits m1 ++ [45%N] ++ two_digits d1)
    with ([45%N] ++ (two_digits m1 ++ ([45%N] ++ two_digits d1))).
  change ([45%N] ++ two_digits m2 ++ [45%N] ++ two_digits d2)
    with ([45%N] ++ (two_digits m2 ++ ([45%N] ++ two_digits d2))).
  rewrite (str_gtb_app [45%N] [45%N]) by reflexivity.
  rewrite (str_gtb_app (two_digits m1) (two_digits m2)) by reflexivity.
  rewrite (str_gtb_app [45%N] [45%N]) by reflexivity.
  rewrite Gm, Em, Gd.
  change (str_gtb [45%N] [45%N]) with false.
  change (str_eqb [45%N] [45%N]) with true. cbn [orb andb].
  destruct (N.ltb_spec y2 y1), (N.eqb_spec y1 y2), (N.ltb_spec m2 m1),
    (N.eqb_spec m1 m2), (N.ltb_spec d2 d1); cbn [orb andb];
    split; intros Hx; try discriminate; try reflexivity; try lia.
Qed.

(** The comparison only reads the first ten code units of the time stamp
    and is a comparison of calendar dates: for dates in the form
    YYYY-MM-DD it is true exactly when the publish date is a later day
    than today, so a post dated today is not in the future whatever its
    time of day. *)
Theorem isFuturePublishDate_compares_days
    (y1 m1 d1 y2 m2 d2 : N) (time : str) :
  (y1 < 10000)%N -> (y2 < 10000)%N -> (m1 < 100)%N -> (m2 < 100)%N ->
  (d1 < 100)%N -> (d2 < 100)%N ->
  (isFuturePublishDate (isoDate y1 m1 d1 ++ time) (isoDate y2 m2 d2) = true
   <-> (y2 < y1 \/ (y1 = y2 /\ (m2 < m1 \/ (m1 = m2 /\ d2 < d1))))%N)
  /\ isFuturePublishDate (isoDate y2 m2 d2 ++ time) (isoDate y2 m2 d2) = false.
Proof.
  intros Hy1 Hy2 Hm1 Hm2 Hd1 Hd2. unfold isFuturePublishDate.
  assert (F : forall y m d, firstn 10 (isoDate y m d ++ time) = isoDate y m d).
  { intros y m d. rewrite <- (isoDate_length y m d).
    now rewrite firstn_app, firstn_all, Nat.sub_diag, firstn_O, app_nil_r. }
  rewrite !F. split.
  - now apply isoDate_gtb.
  - apply str_gtb_irrefl.
Qed.

Lemma isFuturePublishDate_compares_days_witness :
  isFuturePublishDate (lit "2025-03-01T12:00:00Z") (lit "2025-02-28") = true.
Proof.
  assert (H1 : (2025 < 10000)%N) by reflexivity.
  assert (H2 : (3 < 100)%N) by reflexivity.
  assert (H3 : (1 < 100)%N) by reflexivity.
  assert (H4 : (2 < 100)%N) by reflexivity.
  assert (H5 : (28 < 100)%N) by reflexivity.
  pose proof (proj1 (isFuturePublishDate_compares_days 2025 3 1 2025 2 28
                       (lit "T12:00:00Z") H1 H1 H2 H4 H3 H5)) as [_ H].
  apply H. right. split; [reflexivity|]. left. reflexivity.
Defined.

(** ** The store of formula-modal openers *)

Lemma mapGet_mapSet (key k : symbol) (fn : opener) (m : list (symbol * opener)) :
  mapGet k (mapSet key fn m) = if key =? k then Some fn else mapGet k m.
Proof.
  induction m as [|[k0 f0] m IH]; cbn [mapSet mapGet].
  - destruct (Nat.eqb_spec key k); reflexivity.
  - destruct (Nat.eqb_spec k0 key) as [->|N1]; cbn [mapGet].
    + destruct (Nat.eqb_spec key k); reflexivity.
    + rewrite IH. destruct (Nat.eqb_spec k0 k) as [->|N2]; [|reflexivity].
      destruct (Nat.eqb_spec key k); [congruence|reflexivity].
Qed.

Lemma mapSet_not_empty (key : symbol) (fn : opener) (m : list (symbol * opener)) :
  (length (mapSet key fn m) =? 0) = false.
Proof.
  destruct m as [|[k0 f0] m]; cbn [mapSet]; [reflexivity|].
  now destruct (k0 =? key).
Qed.

Lemma keys_mapSet (key : symbol) (fn : opener) (m : list (symbol * opener)) :
  NoDup (map fst m) ->
  NoDup (map fst (mapSet key fn m))
  /\ (forall k, In k (map fst (mapSet key fn m)) <-> k = key \/ In k (map fst m)).
Proof.
  induction m as [|[k0 f0] m IH]; cbn [mapSet map fst]; intros H.
  - split; [repeat constructor; auto|]. intros k. cbn. intuition.
  - inversion H as [|? ? Hn Hd]; subst.
    destruct (Nat.eqb_spec k0 key) as [->|N1]; cbn [map fst].
    + split; [exact H|]. intros k. cbn. intuition.
    + destruct (IH Hd) as [I1 I2]. split.
      * constructor; [|exact I1]. rewrite I2. intros [E|E]; auto.
      * intros k. cbn [In]. rewrite I2. intuition.
Qed.

Lemma mapGet_absent (k : symbol) (m : list (symbol * opener)) :
  ~ In k (map fst m) -> mapGet k m = None.
Proof.
  induction m as [|[k1 f1] m IH]; intros Hk; [reflexivity|].
  cbn [mapGet]. cbn [map fst In] in Hk.
  destruct (Nat.eqb_spec k1 k); [tauto|]. apply IH. tauto.
Qed.

Lemma mapGet_present (k : symbol) (m : list (symbol * opener)) :
  In k (map fst m) -> exists fn, mapGet k m = Some fn.
Proof.
  induction m as [|[k1 f1] m IH]; intros Hk; [destruct Hk|].
  cbn [mapGet]. cbn [map fst In] in Hk.
  destruct (Nat.eqb_spec k1 k); [now exists f1|]. apply IH. tauto.
Qed.

Lemma keys_mapDelete (key : symbol) (m : list (symbol * opener)) :
  NoDup (map fst m) ->
  NoDup (map fst (mapDelete key m))
  /\ (forall k, In k (map fst (mapDelete key m)) <-> k <> key /\ In k (map fst m)).
Proof.
  induction m as [|[k0 f0] m IH]; cbn [mapDelete map fst]; intros H.
  - split; [constructor|]. cbn. tauto.
  - inversion H as [|? ? Hn Hd]; subst. destruct (IH Hd) as (I1 & I2).
    destruct (Nat.eqb_spec k0 key) as [->|N1]; cbn [map fst].
    + split; [exact Hd|]. intros k. cbn [In]. split.
      * intros Hin. split; [|now right]. intros ->. contradiction.
      * intros [Hk [E|Hin]]; [congruence|exact Hin].
    + split.
      * constructor; [|exact I1]. rewrite I2. tauto.
      * intros k. cbn [In]. rewrite I2. split.
        -- intros [E|[Hk Hin]]; [subst; split; [exact N1|now left]|].
           split; [exact Hk|now right].
        -- intros [Hk [E|Hin]]; [now left|right; now split].
Qed.

Lemma mapGet_mapDelete (key k : symbol) (m : list (symbol * opener)) :
  NoDup (map fst m) ->
  mapGet k (mapDelete key m) = if key =? k then None else mapGet k m.
Proof.
  induction m as [|[k0 f0] m IH]; cbn [mapDelete mapGet map fst]; intros H.
  - now destruct (key =? k).
  - inversion H as [|? ? Hn Hd]; subst.
    destruct (Nat.eqb_spec k0 key) as [->|N1].
    + destruct (Nat.eqb_spec key k) as [->|N2]; [|reflexivity].
      now apply mapGet_absent.
    + cbn [mapGet]. rewrite (IH Hd).
      destruct (Nat.eqb_spec k0 k) as [->|N2]; [|reflexivity].
      destruct (Nat.eqb_spec key k); [congruence|reflexivity].
Qed.

Lemma runOps_snoc (ops : list StoreOp) (op : StoreOp) :
  runOps (ops ++ [op]) = applyOp (runOps ops) op.
Proof. unfold runOps, runFrom. now rewrite fold_left_app. Qed.

Lemma reachable_keys_unique (ops : list StoreOp) :
  NoDup (map fst (openers (runOps ops))).
Proof.
  induction ops as [|op ops IH] using rev_ind; [constructor|].
  rewrite runOps_snoc. destruct op as [key fn|key|key]; cbn [applyOp].
  - now apply keys_mapSet.
  - now apply keys_mapDelete.
  - exact IH.
Qed.

Lemma applyOp_keys_unique (s : FormulaModalStore) (op : StoreOp) :
  NoDup (map fst (openers s)) -> NoDup (map fst (openers (applyOp s op))).
Proof.
  intros H. destruct op as [key fn|key|key]; cbn [applyOp].
  - now apply keys_mapSet.
  - now apply keys_mapDelete.
  - exact H.
Qed.

Lemma applyOp_untouched (s : FormulaModalStore) (op : StoreOp) (key : symbol) :
  NoDup (map fst (openers s)) -> touches key op = false ->
  mapGet key (openers (applyOp s op)) = mapGet key (openers s).
Proof.
  intros H T. destruct op as [k fn|k|k]; cbn [applyOp touches] in *.
  - cbn [addFormulaModalOpener openers]. rewrite mapGet_mapSet. now rewrite T.
  - cbn [removeFormulaModalOpener openers].
    rewrite mapGet_mapDelete by exact H. now rewrite T.
  - reflexivity.
Qed.

Lemma runFrom_untouched (ops : list StoreOp) (s : FormulaModalStore)
    (key : symbol) :
  NoDup (map fst (openers s)) -> forallb (fun op => negb (touches key op)) ops = true ->
  mapGet key (openers (runFrom s ops)) = mapGet key (openers s).
Proof.
  revert s. induction ops as [|op ops IH]; intros s H T; [reflexivity|].
  cbn [forallb] in T. apply andb_true_iff in T. destruct T as [T1 T2].
  apply negb_true_iff in T1. unfold runFrom. cbn [fold_left].
  fold (runFrom (applyOp s op) ops).
  rewrite IH by (try apply applyOp_keys_unique; assumption).
  now apply applyOp_untouched.
Qed.

Lemma open_registered (inst : option symbol) (s : FormulaModalStore)
    (k : symbol) (fn : opener) :
  match inst with Some k' => Some k' | None => activeOpenerKey s end = Some k ->
  mapGet k (openers s) = Some fn ->
  openFormulaModalForEdit inst s = CallTarget fn.
Proof.
  intros Hk Hg. unfold openFormulaModalForEdit.
  destruct (openers s) as [|p m] eqn:E; [discriminate Hg|].
  cbn [length Nat.eqb]. rewrite Hk. unfold mapHas. now rewrite Hg.
Qed.

Lemma open_unregistered (inst : option symbol) (s : FormulaModalStore) :
  match match inst with Some k' => Some k' | None => activeOpenerKey s end with
  | Some k => mapGet k (openers s) = None
  | None => True
  end ->
  openFormulaModalForEdit inst s =
  match openers s with
  | [] => WarnNoOpener
  | (_, firstOpener) :: _ => CallFallback firstOpener
  end.
Proof.
  intros H. unfold openFormulaModalForEdit.
  destruct (openers s) as [|[k0 f0] m] eqn:E; [reflexivity|].
  cbn [length Nat.eqb].
  destruct (match inst with Some k' => Some k' | None => activeOpenerKey s end)
    as [k|]; [|reflexivity].
  unfold mapHas. now rewrite H.
Qed.

(** An edit request is never dropped without a trace: it warns that no
    opener is registered exactly when the store is empty, and otherwise
    it calls one opener, the target's or the first registered one. *)
Theorem openFormulaModalForEdit_never_silent :
  forall (inst : option symbol) (s : FormulaModalStore),
    openFormulaModalForEdit inst s <> Silent
    /\ (openFormulaModalForEdit inst s = WarnNoOpener <-> openers s = []).
Proof.
  intros inst s. unfold openFormulaModalForEdit.
  destruct (openers s) as [|[k0 f0] m] eqn:E; cbn [length Nat.eqb].
  - split; [discriminate|tauto].
  - destruct (match inst with Some k' => Some k' | None => activeOpenerKey s end)
      as [k|].
    + unfold mapHas. destruct (mapGet k ((k0, f0) :: m));
        (split; [discriminate|split; discriminate]).
    + split; [discriminate|split; discriminate].
Qed.

(** Whatever happened before, once an editor has registered its opener
    under its key, a request that carries this key calls that opener,
    until the key is registered again or removed; other editors that
    come, go or become active in between do not change this. *)
Theorem request_reaches_its_editor :
  forall (before later : list StoreOp) (key : symbol) (fn : opener),
    forallb (fun op => negb (touches key op)) later = true ->
    openFormulaModalForEdit (Some key)
      (runOps (before ++ OpAdd key fn :: later)) = CallTarget fn.
Proof.
  intros before later key fn T.
  apply (open_registered (Some key) _ key fn); [reflexivity|].
  unfold runOps, runFrom. rewrite fold_left_app. cbn [fold_left].
  fold (runFrom emptyStore before). fold (runOps before).
  fold (runFrom (applyOp (runOps before) (OpAdd key fn)) later).
  rewrite runFrom_untouched; [| |exact T].
  - cbn [applyOp addFormulaModalOpener openers]. rewrite mapGet_mapSet.
    now rewrite Nat.eqb_refl.
  - apply applyOp_keys_unique, reachable_keys_unique.
Qed.

Lemma request_reaches_its_editor_witness :
  openFormulaModalForEdit (Some 1)
    (runOps ([OpAdd 0 10] ++ OpAdd 1 11 :: [OpSetActive 0; OpAdd 2 12; OpRemove 0]))
  = CallTarget 11.
Proof. apply request_reaches_its_editor. reflexivity. Defined.

(** When an editor unregisters, it stops being the active one, the
    other editors keep their openers, and a request that still carries
    its key falls back to the first opener that is left, or warns when
    none is left. *)
Theorem removed_editor_is_forgotten :
  forall (ops : list StoreOp) (key : symbol),
    let s := removeFormulaModalOpener key (runOps ops) in
    getActiveFormulaModalOpenerKey s <> Some key
    /\ (forall k, k <> key ->
          mapGet k (openers s) = mapGet k (openers (runOps ops))
          /\ (getActiveFormulaModalOpenerKey (runOps ops) = Some k ->
              getActiveFormulaModalOpenerKey s = Some k))
    /\ openFormulaModalForEdit (Some key) s =
       match openers s with
       | [] => WarnNoOpener
       | (_, firstOpener) :: _ => CallFallback firstOpener
       end.
Proof.
  intros ops key s. pose proof (reachable_keys_unique ops) as U.
  assert (G : forall k, mapGet k (openers s) =
                        if key =? k then None else mapGet k (openers (runOps ops))).
  { intros k. unfold s. cbn [removeFormulaModalOpener openers].
    now apply mapGet_mapDelete. }
  split; [|split].
  - unfold s, getActiveFormulaModalOpenerKey.
    cbn [removeFormulaModalOpener activeOpenerKey].
    destruct (activeOpenerKey (runOps ops)) as [a|]; [|discriminate].
    destruct (Nat.eqb_spec a key); [discriminate|congruence].
  - intros k Hk. split.
    + rewrite G. destruct (Nat.eqb_spec key k); [congruence|reflexivity].
    + unfold s, getActiveFormulaModalOpenerKey.
      cbn [removeFormulaModalOpener activeOpenerKey]. intros ->.
      destruct (Nat.eqb_spec k key); [congruence|reflexivity].
  - apply open_unregistered. rewrite G. now rewrite Nat.eqb_refl.
Qed.

(** A request without a key goes to the active editor when that one is
    registered, and a key in the request takes precedence over the
    active editor. *)
Theorem active_editor_is_the_default_target
    (s : FormulaModalStore) (active : symbol) (fn : opener) :
  mapGet active (openers s) = Some fn ->
  openFormulaModalForEdit None (setActiveFormulaModalOpenerKey active s)
  = CallTarget fn
  /\ (forall k fk, mapGet k (openers s) = Some fk ->
        openFormulaModalForEdit (Some k) (setActiveFormulaModalOpenerKey active s)
        = CallTarget fk).
Proof.
  intros H. split.
  - now apply (open_registered None _ active fn).
  - intros k fk Hk. now apply (open_registered (Some k) _ k fk).
Qed.

Lemma active_editor_is_the_default_target_witness :
  openFormulaModalForEdit None
    (setActiveFormulaModalOpenerKey 2 (runOps [OpAdd 1 11; OpAdd 2 12]))
  = CallTarget 12.
Proof.
  exact (proj1 (active_editor_is_the_default_target
                  (runOps [OpAdd 1 11; OpAdd 2 12]) 2 12 eq_refl)).
Defined.

Lemma removed_editor_is_forgotten_witness :
  openFormulaModalForEdit (Some 1)
    (removeFormulaModalOpener 1 (runOps [OpAdd 1 11; OpSetActive 1; OpAdd 2 12]))
  = CallFallback 12.
Proof.
  exact (proj2 (proj2 (removed_editor_is_forgotten
                         [OpAdd 1 11; OpSetActive 1; OpAdd 2 12] 1))).
Defined.
